(** * Responsive demo: breakpoint tracker, navigation menu and change log

    A shallow embedding of the TypeScript module of the responsive design
    demo (classes [BreakpointManager], [ResponsiveNav] and [UIUpdater]) and
    the properties its specification states about them.

    Conventions of the embedding:
    - [window.innerWidth] and [window.innerHeight] are integers, modelled
      as [Z];
    - breakpoint names are JavaScript strings, modelled as [string]; the
      TypeScript type [BreakpointName] is erased at run time, so queries
      with a name outside the table are expressible;
    - a JavaScript object used as a dictionary ([Record<string, ...>]) is
      a [gmap string _]; the object literal [breakpoints], whose key
      order matters ([Object.entries], [Object.keys]), is an association
      list in insertion order;
    - a method of a class is a function on the record of the instance's
      fields; what the method does to the outside (callbacks invoked,
      events dispatched, console lines) is returned as a trace. *)

From Stdlib Require Import ZArith Lia.
From Stdlib Require DecimalString DecimalZ QArith.
From stdpp Require Import gmap strings list fin_maps.


Local Open Scope Z_scope.

(* ================================================================== *)
(** * The breakpoint table and the queries over it *)
(* ================================================================== *)

Module Breakpoints.

(** [type BreakpointName = keyof Breakpoints], a string at run time. *)
Abbreviation BreakpointName := string.

(** [private breakpoints: Breakpoints = { xs: 0, sm: 576, ... }], in the
    insertion order that [Object.entries] and [Object.keys] follow. *)
Definition breakpoints : list (BreakpointName * Z) :=
  [ ("xs", 0); ("sm", 576); ("md", 768);
    ("lg", 1024); ("xl", 1280); ("xxl", 1536) ].

(** [Object.keys(this.breakpoints)] *)
Definition breakpointNames : list BreakpointName := map fst breakpoints.

(** The callback handed to [forEach] in [getCurrentBreakpoint]:
    [if (width >= minWidth) current = name]. *)
Definition keepIfReached (width : Z) (current : BreakpointName)
    (entry : BreakpointName * Z) : BreakpointName :=
  let '(name, minWidth) := entry in
  if width >=? minWidth then name else current.

(** The [forEach] loop of [getCurrentBreakpoint] over an arbitrary table,
    starting from a running value [current]. *)
Definition scanBreakpoints (table : list (BreakpointName * Z)) (width : Z)
    (current : BreakpointName) : BreakpointName :=
  fold_left (keepIfReached width) table current.

(** [getCurrentBreakpoint()], with [window.innerWidth] as argument. *)
Definition getCurrentBreakpoint (width : Z) : BreakpointName :=
  scanBreakpoints breakpoints width "xs".

(** [Array.prototype.indexOf] with strict equality: the first position
    holding [x], or [-1]. *)
Fixpoint indexOfFrom (names : list string) (x : string) (i : Z) : Z :=
  match names with
  | [] => -1
  | n :: rest => if String.eqb n x then i else indexOfFrom rest x (i + 1)
  end.

Definition indexOf (names : list string) (x : string) : Z :=
  indexOfFrom names x 0.

(** [isUp(breakpoint)] and [isDown(breakpoint)], with the field
    [this.currentBreakpoint] as first argument. *)
Definition isUp (currentBreakpoint breakpoint : BreakpointName) : bool :=
  let currentIndex := indexOf breakpointNames currentBreakpoint in
  let targetIndex := indexOf breakpointNames breakpoint in
  currentIndex >=? targetIndex.

Definition isDown (currentBreakpoint breakpoint : BreakpointName) : bool :=
  let currentIndex := indexOf breakpointNames currentBreakpoint in
  let targetIndex := indexOf breakpointNames breakpoint in
  currentIndex <=? targetIndex.

(** [is(breakpoint)]; [is] is reserved in Rocq, hence the longer name. *)
Definition isBreakpoint (currentBreakpoint breakpoint : BreakpointName) : bool :=
  String.eqb currentBreakpoint breakpoint.

(** The rank of a name: its position in the ascending table.  This is the
    specification's notion, stated with list lookup and independent of
    [indexOf]. *)
Definition hasRank (name : BreakpointName) (r : nat) : Prop :=
  breakpointNames !! r = Some name.

End Breakpoints.

(* ================================================================== *)
(** * BreakpointManager *)
(* ================================================================== *)

Module Manager.
Import Breakpoints.

(** The part of [window] the manager reads. *)
Record Window := {
  innerWidth : Z;
  innerHeight : Z
}.

(** [interface ViewportChangeDetail] *)
Record ViewportChangeDetail := {
  oldBreakpoint : BreakpointName;
  newBreakpoint : BreakpointName;
  width : Z;
  height : Z
}.

(** A registered callback is a closure the manager knows nothing about.
    It is modelled by an identity [cb_id], by which the trace tells which
    closure ran, and by the calls it makes back into the manager while it
    runs.  The public methods that change the manager are [onChange],
    [onEnter], [onExit] and [destroy]; the fields [currentBreakpoint] and
    [previousBreakpoint] are private and no public method writes them. *)
Inductive callback : Type :=
  | Callback (cb_id : nat) (cb_body : list action)
with action : Type :=
  | CallOnChange (cb : callback)
  | CallOnEnter (breakpoint : BreakpointName) (cb : callback)
  | CallOnExit (breakpoint : BreakpointName) (cb : callback)
  | CallDestroy.

Definition cb_id (cb : callback) : nat :=
  match cb with Callback id _ => id end.

Definition cb_body (cb : callback) : list action :=
  match cb with Callback _ body => body end.

(** The field [callbacks]: [{ change: [], enter: {}, exit: {} }].  The
    dictionaries are only ever indexed by names that are not properties
    inherited from [Object.prototype], so a finite map is adequate. *)
Record Callbacks := {
  change : list callback;
  enter : gmap string (list callback);
  exit : gmap string (list callback)
}.

Definition noCallbacks : Callbacks :=
  {| change := []; enter := ∅; exit := ∅ |}.

(** The [ResizeObserver] held by the manager; [observing] tells whether
    it still watches [document.body]. *)
Record ResizeObserver := {
  observing : bool
}.

(** The fields of a [BreakpointManager] instance. *)
Record BreakpointManager := {
  currentBreakpoint : BreakpointName;
  previousBreakpoint : option BreakpointName;
  resizeObserver : option ResizeObserver;
  callbacks : Callbacks
}.

Definition withCallbacks (m : BreakpointManager) (c : Callbacks)
    : BreakpointManager :=
  {| currentBreakpoint := currentBreakpoint m;
     previousBreakpoint := previousBreakpoint m;
     resizeObserver := resizeObserver m;
     callbacks := c |}.

(** [constructor()]: the current breakpoint is computed first, then the
    registries are created empty, then [init()] starts the observation. *)
Definition construct (win : Window) : BreakpointManager :=
  {| currentBreakpoint := getCurrentBreakpoint (innerWidth win);
     previousBreakpoint := None;
     resizeObserver := Some {| observing := true |};
     callbacks := noCallbacks |}.

(** [onChange(callback)]: [this.callbacks.change.push(callback)] *)
Definition onChange (cb : callback) (m : BreakpointManager)
    : BreakpointManager :=
  let c := callbacks m in
  withCallbacks m
    {| change := change c ++ [cb]; enter := enter c; exit := exit c |}.

(** The registration shared by [onEnter] and [onExit]: create the array
    when it is missing, then push. *)
Definition pushAt (breakpoint : BreakpointName) (cb : callback)
    (registry : gmap string (list callback)) : gmap string (list callback) :=
  let registry' :=
    match registry !! breakpoint with
    | None => <[breakpoint := []]> registry
    | Some _ => registry
    end in
  match registry' !! breakpoint with
  | Some arr => <[breakpoint := arr ++ [cb]]> registry'
  | None => registry'
  end.

(** [onEnter(breakpoint, callback)] *)
Definition onEnter (breakpoint : BreakpointName) (cb : callback)
    (m : BreakpointManager) : BreakpointManager :=
  let c := callbacks m in
  withCallbacks m
    {| change := change c;
       enter := pushAt breakpoint cb (enter c);
       exit := exit c |}.

(** [onExit(breakpoint, callback)] *)
Definition onExit (breakpoint : BreakpointName) (cb : callback)
    (m : BreakpointManager) : BreakpointManager :=
  let c := callbacks m in
  withCallbacks m
    {| change := change c;
       enter := enter c;
       exit := pushAt breakpoint cb (exit c) |}.

(** [destroy()]: disconnect the observer when there is one, and replace
    the registries by fresh empty ones. *)
Definition destroy (m : BreakpointManager) : BreakpointManager :=
  {| currentBreakpoint := currentBreakpoint m;
     previousBreakpoint := previousBreakpoint m;
     resizeObserver :=
       match resizeObserver m with
       | Some _ => Some {| observing := false |}
       | None => None
       end;
     callbacks := noCallbacks |}.

(** [get()] *)
Definition get (m : BreakpointManager) : BreakpointName :=
  currentBreakpoint m.

(** [getViewport()] *)
Definition getViewport (win : Window) : Z * Z :=
  (innerWidth win, innerHeight win).

(** What a running callback does to the manager. *)
Definition perform (m : BreakpointManager) (a : action) : BreakpointManager :=
  match a with
  | CallOnChange cb => onChange cb m
  | CallOnEnter bp cb => onEnter bp cb m
  | CallOnExit bp cb => onExit bp cb m
  | CallDestroy => destroy m
  end.

Definition runBody (body : list action) (m : BreakpointManager)
    : BreakpointManager :=
  fold_left perform body m.

(** Which registry a callback was taken from. *)
Inductive CallbackKind :=
  | OnChange
  | OnExit (breakpoint : BreakpointName)
  | OnEnter (breakpoint : BreakpointName).

(** What [checkBreakpointChange] does that is visible outside the
    manager.  An invocation records the argument the callback received
    and the values [currentBreakpoint] and [previousBreakpoint] hold when
    it starts to run. *)
Inductive Event :=
  | Invoked (kind : CallbackKind) (id : nat)
            (arg : option ViewportChangeDetail)
            (current : BreakpointName) (previous : option BreakpointName)
  | Dispatched (detail : ViewportChangeDetail)
  | Logged (previous : option BreakpointName) (current : BreakpointName).

(** [arr.forEach(cb => cb(arg))].  The array is read once; elements
    pushed while the loop runs are beyond the length [forEach] took at
    its start and are not visited.  Each callback runs to completion
    before the next one starts. *)
Fixpoint forEach (arr : list callback) (kind : CallbackKind)
    (arg : option ViewportChangeDetail)
    (st : BreakpointManager * list Event) : BreakpointManager * list Event :=
  match arr with
  | [] => st
  | cb :: rest =>
      let '(m, trace) := st in
      let ev := Invoked kind (cb_id cb) arg
                        (currentBreakpoint m) (previousBreakpoint m) in
      forEach rest kind arg (runBody (cb_body cb) m, trace ++ [ev])
  end.

(** JavaScript truthiness of a [string | null] value. *)
Definition truthy (s : option string) : bool :=
  match s with
  | None => false
  | Some s => negb (String.eqb s "")
  end.

(** The state of the manager once a [forEach] over [arr] is over. *)
Definition runAll (arr : list callback) (m : BreakpointManager)
    : BreakpointManager :=
  fold_left (λ m cb, runBody (cb_body cb) m) arr m.

(** The two assignments that open the changed branch of
    [checkBreakpointChange]:
    [this.previousBreakpoint = this.currentBreakpoint;
     this.currentBreakpoint = newBreakpoint;] *)
Definition recordTransition (newBreakpoint : BreakpointName)
    (m : BreakpointManager) : BreakpointManager :=
  {| currentBreakpoint := newBreakpoint;
     previousBreakpoint := Some (currentBreakpoint m);
     resizeObserver := resizeObserver m;
     callbacks := callbacks m |}.

(** The record built in the changed branch, read from the fields just
    assigned.  After the assignment [previousBreakpoint] is not null; the
    [None] case only makes the function total. *)
Definition buildDetail (win : Window) (m : BreakpointManager)
    : ViewportChangeDetail :=
  {| oldBreakpoint := default "" (previousBreakpoint m);
     newBreakpoint := currentBreakpoint m;
     width := innerWidth win;
     height := innerHeight win |}.

(** [checkBreakpointChange()], with [window] as argument.  It returns the
    manager after the call and the trace of what happened. *)
Definition checkBreakpointChange (win : Window) (m : BreakpointManager)
    : BreakpointManager * list Event :=
  let newBreakpoint := getCurrentBreakpoint (innerWidth win) in
  if negb (String.eqb newBreakpoint (currentBreakpoint m)) then
    let m1 := recordTransition newBreakpoint m in
    let detail := buildDetail win m1 in
    (* Trigger change callbacks *)
    let st2 := forEach (change (callbacks m1)) OnChange (Some detail)
                       (m1, []) in
    (* Trigger exit callbacks for old breakpoint *)
    let st3 :=
      let m2 := fst st2 in
      if truthy (previousBreakpoint m2) then
        match previousBreakpoint m2 with
        | Some prev =>
            match exit (callbacks m2) !! prev with
            | Some arr => forEach arr (OnExit prev) None st2
            | None => st2
            end
        | None => st2
        end
      else st2 in
    (* Trigger enter callbacks for new breakpoint *)
    let st4 :=
      let m3 := fst st3 in
      match enter (callbacks m3) !! currentBreakpoint m3 with
      | Some arr => forEach arr (OnEnter (currentBreakpoint m3)) None st3
      | None => st3
      end in
    (* Dispatch custom event, then the console line *)
    let '(m4, trace) := st4 in
    (m4, trace ++ [Dispatched detail;
                   Logged (previousBreakpoint m4) (currentBreakpoint m4)])
  else (m, []).

(** What happens to a manager over its life: viewport-size notifications
    reaching [checkBreakpointChange] (each runs to completion before the
    next starts), and calls of the public methods from outside. *)
Inductive Step :=
  | Notified (win : Window)
  | Called (a : action).

Fixpoint run (steps : list Step) (m : BreakpointManager)
    : BreakpointManager * list Event :=
  match steps with
  | [] => (m, [])
  | Notified win :: rest =>
      let '(m1, t1) := checkBreakpointChange win m in
      let '(m2, t2) := run rest m1 in
      (m2, t1 ++ t2)
  | Called a :: rest => run rest (perform m a)
  end.

(** A sequence of viewport-size notifications and nothing else. *)
Definition notifyAll (wins : list Window) (m : BreakpointManager)
    : BreakpointManager * list Event :=
  run (map Notified wins) m.

(** The callback invocations of a trace, and the events dispatched. *)
Definition isInvocation (e : Event) : bool :=
  match e with
  | Invoked _ _ _ _ _ => true
  | _ => false
  end.

Definition isDispatch (e : Event) : bool :=
  match e with
  | Dispatched _ => true
  | _ => false
  end.

Definition invocations (trace : list Event) : list Event :=
  List.filter isInvocation trace.

Definition dispatches (trace : list Event) : list Event :=
  List.filter isDispatch trace.

(** The change record an event carries, if any. *)
Definition carried (e : Event) : option ViewportChangeDetail :=
  match e with
  | Invoked _ _ arg _ _ => arg
  | Dispatched detail => Some detail
  | Logged _ _ => None
  end.

(** The callbacks an exit or enter phase finds under a name. *)
Definition registered (registry : gmap string (list callback))
    (name : BreakpointName) : list callback :=
  default [] (registry !! name).

(** One turn of [checkBreakpointChange] as observers see it: there is one
    change record [d], with different old and new names, it is dispatched
    once, and every callback of the turn runs while the manager holds
    [newBreakpoint d] as current and [oldBreakpoint d] as previous
    breakpoint, receiving [d] or (exit and enter callbacks) nothing. *)
Definition consistentEvent (d : ViewportChangeDetail) (e : Event) : Prop :=
  match e with
  | Invoked _ _ arg current previous =>
      current = newBreakpoint d
      ∧ previous = Some (oldBreakpoint d)
      ∧ (arg = Some d ∨ arg = None)
  | Dispatched detail => detail = d
  | Logged previous current =>
      previous = Some (oldBreakpoint d) ∧ current = newBreakpoint d
  end.

Definition consistentTurn (turn : list Event) : Prop :=
  ∃ d, oldBreakpoint d ≠ newBreakpoint d
       ∧ dispatches turn = [Dispatched d]
       ∧ Forall (consistentEvent d) turn.

End Manager.

(* ================================================================== *)
(** * ResponsiveNav *)
(* ================================================================== *)

Module Nav.

(** A DOM element, as far as the navigation touches it: its class list
    (a [DOMTokenList], an ordered set of tokens) and its attributes other
    than [class]. *)
Record Element := {
  classList : list string;
  attributes : gmap string string
}.

(** [el.classList.add(token)]: appended unless already present. *)
Definition classList_add (token : string) (el : Element) : Element :=
  {| classList :=
       if existsb (String.eqb token) (classList el) then classList el
       else classList el ++ [token];
     attributes := attributes el |}.

(** [el.classList.remove(token)] *)
Definition classList_remove (token : string) (el : Element) : Element :=
  {| classList :=
       List.filter (λ t, negb (String.eqb token t)) (classList el);
     attributes := attributes el |}.

(** [el.setAttribute(name, value)] *)
Definition setAttribute (name value : string) (el : Element) : Element :=
  {| classList := classList el;
     attributes := <[name := value]> (attributes el) |}.

(** [el.getAttribute(name)] *)
Definition getAttribute (name : string) (el : Element) : option string :=
  attributes el !! name.

(** The fields of an initialised [ResponsiveNav] together with the parts
    of the page its methods write: the toggle button and the menu (found
    under the navigation container), the inline style
    [document.body.style.overflow], and whether the toggle button holds
    the keyboard focus. *)
Record ResponsiveNav := {
  toggle : Element;
  menu : Element;
  isOpen : bool;
  isMobile : bool;
  mobileBreakpoint : Z;
  bodyOverflow : string;
  toggleFocused : bool
}.

(** What [querySelector] finds for the constructor: the navigation
    container, if any, and inside it the toggle and the menu, if any. *)
Record NavMarkup := {
  foundToggle : option Element;
  foundMenu : option Element
}.

(** The lines the navigation writes to the console. *)
Inductive ConsoleLine :=
  | NavigationNotFound (navSelector : string)
  | ToggleOrMenuNotFound
  | Initialized
  | MenuOpened
  | MenuClosed.

(** Methods return the new state and the lines written to the console. *)
Definition Outcome : Type := ResponsiveNav * list ConsoleLine.

(** [constructor(navSelector)].  [None] is the inert component: nothing
    was bound and no listener was registered. *)
Definition construct (navSelector : string) (nav : option NavMarkup)
    (innerWidth : Z) (overflow : string)
    : option ResponsiveNav * list ConsoleLine :=
  match nav with
  | None => (None, [NavigationNotFound navSelector])
  | Some markup =>
      match foundToggle markup, foundMenu markup with
      | Some t, Some mn =>
          (Some {| toggle := t; menu := mn;
                   isOpen := false;
                   isMobile := innerWidth <? 768;
                   mobileBreakpoint := 768;
                   bodyOverflow := overflow;
                   toggleFocused := false |},
           [Initialized])
      | _, _ => (None, [ToggleOrMenuNotFound])
      end
  end.

(** [openMenu()] *)
Definition openMenu (s : ResponsiveNav) : Outcome :=
  ({| menu := classList_add "is-open" (menu s);
      toggle := setAttribute "aria-expanded" "true"
                  (classList_add "is-active" (toggle s));
      isOpen := true;
      isMobile := isMobile s;
      mobileBreakpoint := mobileBreakpoint s;
      (* Lock body scroll on mobile *)
      bodyOverflow := if isMobile s then "hidden" else bodyOverflow s;
      toggleFocused := toggleFocused s |},
   [MenuOpened]).

(** [closeMenu()] *)
Definition closeMenu (s : ResponsiveNav) : Outcome :=
  ({| menu := classList_remove "is-open" (menu s);
      toggle := setAttribute "aria-expanded" "false"
                  (classList_remove "is-active" (toggle s));
      isOpen := false;
      isMobile := isMobile s;
      mobileBreakpoint := mobileBreakpoint s;
      (* Unlock body scroll *)
      bodyOverflow := "";
      toggleFocused := toggleFocused s |},
   [MenuClosed]).

(** [toggleMenu()] *)
Definition toggleMenu (s : ResponsiveNav) : Outcome :=
  if isOpen s then closeMenu s else openMenu s.

Definition setMobile (b : bool) (s : ResponsiveNav) : ResponsiveNav :=
  {| toggle := toggle s; menu := menu s; isOpen := isOpen s;
     isMobile := b;
     mobileBreakpoint := mobileBreakpoint s;
     bodyOverflow := bodyOverflow s;
     toggleFocused := toggleFocused s |}.

Definition focusToggle (s : ResponsiveNav) : ResponsiveNav :=
  {| toggle := toggle s; menu := menu s; isOpen := isOpen s;
     isMobile := isMobile s;
     mobileBreakpoint := mobileBreakpoint s;
     bodyOverflow := bodyOverflow s;
     toggleFocused := true |}.

(** [checkViewport()], with [window.innerWidth] as argument. *)
Definition checkViewport (innerWidth : Z) (s : ResponsiveNav) : Outcome :=
  let wasMobile := isMobile s in
  let s1 := setMobile (innerWidth <? mobileBreakpoint s) s in
  if wasMobile && negb (isMobile s1) && isOpen s1 then closeMenu s1
  else (s1, []).

(** The interactions [init()] registers listeners for. *)
Inductive Interaction :=
  | ToggleClick
  | DocumentClick (insideNav : bool)
  | KeyDown (key : string)
  | LinkClick
  | Resized (innerWidth : Z).

(** The listeners of [init()].  A click on the toggle stops propagating,
    so the document listener does not see it; a click on a link of the
    menu reaches the document listener with a target inside the
    navigation, where that listener does nothing. *)
Definition handle (i : Interaction) (s : ResponsiveNav) : Outcome :=
  match i with
  | ToggleClick => toggleMenu s
  | DocumentClick insideNav =>
      if isOpen s && negb insideNav then closeMenu s else (s, [])
  | KeyDown key =>
      if String.eqb key "Escape" && isOpen s then
        let '(s1, out) := closeMenu s in (focusToggle s1, out)
      else (s, [])
  | LinkClick =>
      if isMobile s && isOpen s then closeMenu s else (s, [])
  | Resized innerWidth => checkViewport innerWidth s
  end.

(** A menu that shows as closed: the markers [openMenu] sets are all
    reverted, as [closeMenu] leaves them. *)
Definition showsClosed (s : ResponsiveNav) : Prop :=
  isOpen s = false
  ∧ existsb (String.eqb "is-open") (classList (menu s)) = false
  ∧ existsb (String.eqb "is-active") (classList (toggle s)) = false
  ∧ getAttribute "aria-expanded" (toggle s) = Some "false"
  ∧ bodyOverflow s = "".

End Nav.

(* ================================================================== *)
(** * UIUpdater: the breakpoint change log *)
(* ================================================================== *)

Module Log.
Import Breakpoints.

(** A child node of the list [#breakpoint-log]: an [li] element with its
    text, or a text node of the markup.  Nodes are objects: [node_id]
    tells two nodes with the same content apart. *)
Inductive Node :=
  | LiElement (node_id : nat) (textContent : string)
  | TextNode (node_id : nat) (data : string).

Definition isElement (n : Node) : bool :=
  match n with
  | LiElement _ _ => true
  | TextNode _ _ => false
  end.

(** [el.children]: the child nodes that are elements. *)
Definition children (childNodes : list Node) : list Node :=
  List.filter isElement childNodes.

(** The [UIUpdater] fields used by the log, with the document state they
    refer to: [breakpointLogEl] is [None] when the element is missing,
    otherwise the child nodes of the element, first to last;
    [nextNode] is the identity [document.createElement] gives next. *)
Record UIUpdater := {
  breakpointLogEl : option (list Node);
  nextNode : nat
}.

(** [c.toUpperCase()] on one ASCII character. *)
Definition upperAscii (c : Ascii.ascii) : Ascii.ascii :=
  let n := Ascii.nat_of_ascii c in
  if ((97 <=? n) && (n <=? 122))%nat then Ascii.ascii_of_nat (n - 32) else c.

(** [str.toUpperCase()], for ASCII strings. *)
Fixpoint toUpperCase (str : string) : string :=
  match str with
  | EmptyString => EmptyString
  | String c rest => String (upperAscii c) (toUpperCase rest)
  end.

(** The template literal of [addLogEntry]. *)
Definition entryText (timestamp : string)
    (oldBreakpoint newBreakpoint : BreakpointName) : string :=
  timestamp +:+ " - Changed from " +:+ toUpperCase oldBreakpoint
            +:+ " to " +:+ toUpperCase newBreakpoint.

(** The loop [while (el.children.length > 10) el.removeChild(el.lastChild)].
    Each round removes one child node, so the number of child nodes
    bounds the number of rounds. *)
Fixpoint evict (fuel : nat) (childNodes : list Node) : list Node :=
  match fuel with
  | O => childNodes
  | S fuel' =>
      if (10 <? length (children childNodes))%nat
      then evict fuel' (removelast childNodes)
      else childNodes
  end.

(** [addLogEntry(oldBreakpoint, newBreakpoint)], with the result of
    [new Date().toLocaleTimeString()] as first argument. *)
Definition addLogEntry (timestamp : string)
    (oldBreakpoint newBreakpoint : BreakpointName) (u : UIUpdater)
    : UIUpdater :=
  match breakpointLogEl u with
  | None => u
  | Some childNodes =>
      let entry := LiElement (nextNode u)
                     (entryText timestamp oldBreakpoint newBreakpoint) in
      (* insertBefore(entry, firstChild) *)
      let inserted := entry :: childNodes in
      {| breakpointLogEl := Some (evict (length inserted) inserted);
         nextNode := S (nextNode u) |}
  end.

(** One breakpoint change as the log sees it. *)
Record LogInput := {
  timestamp : string;
  changedFrom : BreakpointName;
  changedTo : BreakpointName
}.

Definition addAll (inputs : list LogInput) (u : UIUpdater) : UIUpdater :=
  fold_left (λ u i, addLogEntry (timestamp i) (changedFrom i) (changedTo i) u)
            inputs u.

(** The child nodes of the log; none when the element is missing. *)
Definition logNodes (u : UIUpdater) : list Node :=
  default [] (breakpointLogEl u).

End Log.

(* ================================================================== *)
(** * The debounce utility and the timers it uses *)
(* ================================================================== *)

Module Debounce.

Section WithArguments.

(** The arguments the debounced function is called with. *)
Context {A : Type}.

(** A timer set by [window.setTimeout(() => func(...args), wait)]: the
    time it is due, the function it will call, and the arguments the
    closure captured.  Functions are told apart by a label. *)
Record Timer := {
  due : Z;
  callee : nat;
  args : A
}.

(** The timers of the page: those not yet run or cleared, by handle, and
    the handle the next [setTimeout] returns. *)
Record Timers := {
  pending : gmap nat Timer;
  nextHandle : nat
}.

(** [window.setTimeout(...)] at time [now]: returns the handle. *)
Definition setTimeout (f : nat) (a : A) (now delay : Z) (T : Timers)
    : nat * Timers :=
  (nextHandle T,
   {| pending := <[nextHandle T := {| due := now + delay; callee := f;
                                      args := a |}]> (pending T);
      nextHandle := S (nextHandle T) |}).

(** [clearTimeout(handle)]: forgets the timer; harmless when the handle
    names no pending timer. *)
Definition clearTimeout (handle : nat) (T : Timers) : Timers :=
  {| pending := delete handle (pending T); nextHandle := nextHandle T |}.

(** The closure [debounce(func, wait)] returns: [func], [wait] and the
    captured variable [timeout]. *)
Record Debounced := {
  func : nat;
  wait : Z;
  timeout : option nat
}.

(** [debounce(func, wait)]: [let timeout = null]. *)
Definition debounce (f : nat) (w : Z) : Debounced :=
  {| func := f; wait := w; timeout := None |}.

(** One call of the debounced function at time [now]:
    [if (timeout) clearTimeout(timeout);
     timeout = window.setTimeout(() => func(...args), wait);]
    The test is JavaScript truthiness of a number or null. *)
Definition call (a : A) (now : Z) (st : Debounced * Timers)
    : Debounced * Timers :=
  let '(d, T) := st in
  let T1 := match timeout d with
            | Some handle =>
                if (handle =? 0)%nat then T else clearTimeout handle T
            | None => T
            end in
  let '(handle, T2) := setTimeout (func d) a now (wait d) T1 in
  ({| func := func d; wait := wait d; timeout := Some handle |}, T2).

(** A function call made by an expiring timer. *)
Record Fired := {
  firedCallee : nat;
  firedArgs : A;
  firedAt : Z
}.

(** The event loop runs the timer [handle] at time [now]: possible only
    when it is pending and due; the timer is then gone. *)
Definition expire (handle : nat) (now : Z) (T : Timers)
    : option (Fired * Timers) :=
  match pending T !! handle with
  | Some t =>
      if due t <=? now then
        Some ({| firedCallee := callee t; firedArgs := args t;
                 firedAt := now |},
              {| pending := delete handle (pending T);
                 nextHandle := nextHandle T |})
      else None
  | None => None
  end.

(** What happens around one debounced function: it is called; the event
    loop runs a timer; other code sets a timer of its own. *)
Inductive Tick :=
  | Call (a : A) (now : Z)
  | Expire (handle : nat) (now : Z)
  | OtherTimeout (f : nat) (a : A) (now delay : Z).

Definition tick (t : Tick) (st : Debounced * Timers)
    : (Debounced * Timers) * list Fired :=
  match t with
  | Call a now => (call a now st, [])
  | Expire handle now =>
      match expire handle now (snd st) with
      | Some (fired, T') => ((fst st, T'), [fired])
      | None => (st, [])
      end
  | OtherTimeout f a now delay =>
      ((fst st, snd (setTimeout f a now delay (snd st))), [])
  end.

Fixpoint ticks (ts : list Tick) (st : Debounced * Timers)
    : (Debounced * Timers) * list Fired :=
  match ts with
  | [] => (st, [])
  | t :: rest =>
      let '(st1, fired1) := tick t st in
      let '(st2, fired2) := ticks rest st1 in
      (st2, fired1 ++ fired2)
  end.

(** The calls of the debounced function [f] among the fired ones. *)
Definition callsOf (f : nat) (fired : list Fired) : list Fired :=
  List.filter (λ x, (firedCallee x =? f)%nat) fired.

Definition isCall (t : Tick) : bool :=
  match t with
  | Call _ _ => true
  | _ => false
  end.

(** The pending timers that will call [f]. *)
Definition pendingFor (f : nat) (T : Timers) : gmap nat Timer :=
  filter (λ ht, callee ht.2 = f) (pending T).

(** The timers are those of a browser: handles are positive and a new
    handle was never given out before. *)
Definition browserTimers (T : Timers) : Prop :=
  (0 < nextHandle T)%nat
  ∧ ∀ handle t, pending T !! handle = Some t →
                (0 < handle < nextHandle T)%nat.

(** The wrapper and the timers fit: every pending timer that calls
    [func] is the one [timeout] names, and other code does not share the
    label [func]. *)
Definition ownsItsTimer (st : Debounced * Timers) : Prop :=
  browserTimers (snd st)
  ∧ ∀ handle t, pending (snd st) !! handle = Some t →
                callee t = func (fst st) → timeout (fst st) = Some handle.

(** Other code sets timers for its own functions only. *)
Definition foreign (f : nat) (t : Tick) : Prop :=
  match t with
  | OtherTimeout g _ _ _ => g ≠ f
  | _ => True
  end.

End WithArguments.

Arguments Timer : clear implicits.
Arguments Timers : clear implicits.
Arguments Fired : clear implicits.
Arguments Tick : clear implicits.

End Debounce.

(* ================================================================== *)
(** * DeviceDetector *)
(* ================================================================== *)

Module Device.
Import Manager.

(** What the detector reads from the browser: [window.innerWidth] and
    [window.innerHeight], whether [window] has a property [ontouchstart],
    [navigator.maxTouchPoints] and the legacy [navigator.msMaxTouchPoints]
    (either may be undefined), and [window.devicePixelRatio] (possibly
    undefined).  The pixel ratio is only tested for being falsy and
    passed on; it is modelled as a rational. *)
Record Browser := {
  window : Window;
  ontouchstart : bool;
  maxTouchPoints : option Z;
  msMaxTouchPoints : option Z;
  devicePixelRatio : option QArith_base.Q
}.

(** [DeviceInfo['type']] and the orientation, string literal types. *)
Inductive DeviceType := mobile | tablet | desktop.
Inductive Orientation := portrait | landscape.

(** [interface DeviceInfo] *)
Record DeviceInfo := {
  type : DeviceType;
  orientation : Orientation;
  isTouch : bool;
  pixelRatio : QArith_base.Q
}.

(** [getOrientation()] *)
Definition getOrientation (b : Browser) : Orientation :=
  if innerHeight (window b) >? innerWidth (window b) then portrait
  else landscape.

(** [x > 0] for a number that may be undefined. *)
Definition positive (x : option Z) : bool :=
  match x with
  | Some n => n >? 0
  | None => false
  end.

(** [isTouchDevice()] *)
Definition isTouchDevice (b : Browser) : bool :=
  ontouchstart b || positive (maxTouchPoints b)
  || positive (msMaxTouchPoints b).

(** [window.devicePixelRatio || 1] *)
Definition pixelRatioOr1 (r : option QArith_base.Q) : QArith_base.Q :=
  match r with
  | Some q =>
      if QArith_base.Qeq_bool q (QArith_base.Qmake 0 1)
      then QArith_base.Qmake 1 1 else q
  | None => QArith_base.Qmake 1 1
  end.

(** [getDeviceInfo()] *)
Definition getDeviceInfo (b : Browser) : DeviceInfo :=
  let width := innerWidth (window b) in
  let type :=
    if width <? 768 then mobile
    else if width <? 1024 then tablet
    else desktop in
  {| type := type;
     orientation := getOrientation b;
     isTouch := isTouchDevice b;
     pixelRatio := pixelRatioOr1 (devicePixelRatio b) |}.

(** [isMobile()], [isTablet()], [isDesktop()] *)
Definition isMobile (b : Browser) : bool :=
  innerWidth (window b) <? 768.

Definition isTablet (b : Browser) : bool :=
  let width := innerWidth (window b) in
  (width >=? 768) && (width <? 1024).

Definition isDesktop (b : Browser) : bool :=
  innerWidth (window b) >=? 1024.

(** The string behind each literal type. *)
Definition typeName (t : DeviceType) : string :=
  match t with
  | mobile => "mobile"
  | tablet => "tablet"
  | desktop => "desktop"
  end.

Definition orientationName (o : Orientation) : string :=
  match o with
  | portrait => "portrait"
  | landscape => "landscape"
  end.

End Device.

(* ================================================================== *)
(** * UIUpdater: the status panel *)
(* ================================================================== *)

Module Display.
Import Breakpoints Device.

(** The display elements [UIUpdater] looks up in its constructor, other
    than the log: [None] when [getElementById] found nothing, otherwise
    the element's text content. *)
Record Elements := {
  currentBreakpointEl : option string;
  viewportDimensionsEl : option string;
  deviceTypeEl : option string;
  orientationEl : option string;
  viewportSizeEl : option string;
  touchDeviceEl : option string
}.

(** Assignment of [textContent] guarded by [if (el)]. *)
Definition setText (el : option string) (text : string) : option string :=
  match el with
  | Some _ => Some text
  | None => None
  end.

(** [updateBreakpoint(breakpoint)] *)
Definition updateBreakpoint (breakpoint : BreakpointName) (e : Elements)
    : Elements :=
  {| currentBreakpointEl :=
       setText (currentBreakpointEl e) (Log.toUpperCase breakpoint);
     viewportDimensionsEl := viewportDimensionsEl e;
     deviceTypeEl := deviceTypeEl e;
     orientationEl := orientationEl e;
     viewportSizeEl := viewportSizeEl e;
     touchDeviceEl := touchDeviceEl e |}.

(** An integer inside a template literal: decimal digits, with a minus
    sign when negative. *)
Definition numberToString (n : Z) : string :=
  DecimalString.NilZero.string_of_int (Z.to_int n).

(** The two template literals of [updateViewportDimensions]; the
    multiplication sign is the two bytes of its UTF-8 encoding. *)
Definition dimensionsText (width height : Z) : string :=
  numberToString width +:+ "×" +:+ numberToString height.

Definition sizeText (width height : Z) : string :=
  numberToString width +:+ " × " +:+ numberToString height.

(** [updateViewportDimensions(width, height)] *)
Definition updateViewportDimensions (width height : Z) (e : Elements)
    : Elements :=
  {| currentBreakpointEl := currentBreakpointEl e;
     viewportDimensionsEl :=
       setText (viewportDimensionsEl e) (dimensionsText width height);
     deviceTypeEl := deviceTypeEl e;
     orientationEl := orientationEl e;
     viewportSizeEl := setText (viewportSizeEl e) (sizeText width height);
     touchDeviceEl := touchDeviceEl e |}.

(** [capitalize(str)]: [str.charAt(0).toUpperCase() + str.slice(1)], for
    ASCII strings. *)
Definition capitalize (str : string) : string :=
  match str with
  | EmptyString => EmptyString
  | String c rest => String (Log.upperAscii c) rest
  end.

(** [updateDeviceInfo(info)] *)
Definition updateDeviceInfo (info : DeviceInfo) (e : Elements) : Elements :=
  {| currentBreakpointEl := currentBreakpointEl e;
     viewportDimensionsEl := viewportDimensionsEl e;
     deviceTypeEl :=
       setText (deviceTypeEl e) (capitalize (typeName (type info)));
     orientationEl :=
       setText (orientationEl e)
               (capitalize (orientationName (orientation info)));
     viewportSizeEl := viewportSizeEl e;
     touchDeviceEl :=
       setText (touchDeviceEl e) (if isTouch info then "Yes" else "No") |}.

End Display.

(* ================================================================== *)
(** * ResponsiveApp *)
(* ================================================================== *)

Module App.
Import Breakpoints Manager Device Display.

(** The fields of a [ResponsiveApp]; the [UIUpdater] is the status panel
    together with the log.  The navigation is [None] when its constructor
    found no markup to bind to. *)
Record ResponsiveApp := {
  breakpointManager : BreakpointManager;
  navigation : option Nav.ResponsiveNav;
  panel : Elements;
  log : Log.UIUpdater
}.

(** The lines [handleBreakpointChange] writes to the console. *)
Inductive ConsoleLine :=
  | BreakpointChanged (data : ViewportChangeDetail)
  | DesktopView
  | MobileView.

(** The body of [updateUI()], given what [this.breakpointManager.get()]
    returns when it runs. *)
Definition refresh (breakpoint : BreakpointName) (b : Browser)
    (e : Elements) : Elements :=
  let viewport := getViewport (window b) in
  let deviceInfo := getDeviceInfo b in
  updateDeviceInfo deviceInfo
    (updateViewportDimensions (fst viewport) (snd viewport)
       (updateBreakpoint breakpoint e)).

(** [updateUI()] *)
Definition updateUI (b : Browser) (app : ResponsiveApp) : ResponsiveApp :=
  {| breakpointManager := breakpointManager app;
     navigation := navigation app;
     panel := refresh (get (breakpointManager app)) b (panel app);
     log := log app |}.

(** [handleBreakpointChange(data)], running inside the manager's change
    loop: [current] is what [this.breakpointManager.get()] returns at
    that moment, [timestamp] what [toLocaleTimeString()] returns. *)
Definition handleBreakpointChange (timestamp : string) (b : Browser)
    (current : BreakpointName) (data : ViewportChangeDetail)
    (ui : Elements * Log.UIUpdater)
    : (Elements * Log.UIUpdater) * list ConsoleLine :=
  let ui' := (refresh current b (fst ui),
              Log.addLogEntry timestamp (oldBreakpoint data)
                              (newBreakpoint data) (snd ui)) in
  let new := newBreakpoint data in
  (ui',
   BreakpointChanged data ::
   (if String.eqb new "lg" || String.eqb new "xl" then [DesktopView]
    else if String.eqb new "xs" || String.eqb new "sm" then [MobileView]
    else [])).

(** The arrow function the constructor registers with [onChange]: it
    reads the manager and never calls a method that changes it. *)
Definition appCallbackId : nat := 0.
Definition appCallback : callback := Callback appCallbackId [].

(** [constructor()], given what the page holds: the markup for the
    navigation, the display elements, the log element. *)
Definition construct (b : Browser) (nav : option Nav.NavMarkup)
    (overflow : string) (e : Elements) (l : Log.UIUpdater)
    : ResponsiveApp :=
  let manager := Manager.construct (window b) in
  let navigation :=
    fst (Nav.construct ".nav" nav (innerWidth (window b)) overflow) in
  let app := updateUI b {| breakpointManager := manager;
                           navigation := navigation;
                           panel := e; log := l |} in
  {| breakpointManager := onChange appCallback (breakpointManager app);
     navigation := navigation;
     panel := panel app;
     log := log app |}.

(** The app's share of one event of the manager's trace: its own change
    callback runs [handleBreakpointChange]. *)
Definition react (timestamp : string) (b : Browser) (ev : Event)
    (st : (Elements * Log.UIUpdater) * list ConsoleLine)
    : (Elements * Log.UIUpdater) * list ConsoleLine :=
  match ev with
  | Invoked OnChange id (Some data) current _ =>
      if (id =? appCallbackId)%nat then
        let '(ui', out) :=
          handleBreakpointChange timestamp b current data (fst st) in
        (ui', snd st ++ out)
      else st
  | _ => st
  end.

(** What the page does to the app. *)
Inductive AppEvent :=
  (* the manager's debounced observer callback runs *)
  | BodyResized (b : Browser) (timestamp : string)
  (* the debounced resize listeners run: the navigation's, registered
     first, then the app's *)
  | WindowResized (b : Browser)
  (* the timer set on orientationchange runs *)
  | OrientationChanged (b : Browser)
  (* an interaction the navigation listens to *)
  | NavInteraction (i : Nav.Interaction).

Definition step (ev : AppEvent) (app : ResponsiveApp)
    : ResponsiveApp * list ConsoleLine :=
  match ev with
  | BodyResized b timestamp =>
      let '(m', trace) :=
        checkBreakpointChange (window b) (breakpointManager app) in
      let '(ui', out) :=
        fold_left (λ st e, react timestamp b e st) trace
                  ((panel app, log app), []) in
      ({| breakpointManager := m';
          navigation := navigation app;
          panel := fst ui'; log := snd ui' |}, out)
  | WindowResized b =>
      let nav' :=
        match navigation app with
        | Some n =>
            Some (fst (Nav.handle (Nav.Resized (innerWidth (window b))) n))
        | None => None
        end in
      (updateUI b {| breakpointManager := breakpointManager app;
                     navigation := nav';
                     panel := panel app; log := log app |}, [])
  | OrientationChanged b => (updateUI b app, [])
  | NavInteraction i =>
      ({| breakpointManager := breakpointManager app;
          navigation :=
            match navigation app with
            | Some n => Some (fst (Nav.handle i n))
            | None => None
            end;
          panel := panel app; log := log app |}, [])
  end.

Fixpoint steps (evs : list AppEvent) (app : ResponsiveApp)
    : ResponsiveApp * list ConsoleLine :=
  match evs with
  | [] => (app, [])
  | ev :: rest =>
      let '(app1, out1) := step ev app in
      let '(app2, out2) := steps rest app1 in
      (app2, out1 ++ out2)
  end.

(** The breakpoint transitions among the events: the notifications that
    find another breakpoint than the stored one. *)
Fixpoint transitions (evs : list AppEvent) (current : BreakpointName)
    : nat :=
  match evs with
  | [] => 0
  | BodyResized b _ :: rest =>
      let new := getCurrentBreakpoint (innerWidth (window b)) in
      if String.eqb new current then transitions rest current
      else S (transitions rest new)
  | _ :: rest => transitions rest current
  end.

End App.

(* ================================================================== *)
(** * The manager behind its debounced observer *)
(* ================================================================== *)

Module Observer.
Import Breakpoints Manager Debounce.

(** The label of the arrow function [() => this.checkBreakpointChange()]
    handed to [debounce] in [init()]. *)
Definition checkLabel : nat := 0.

(** A [BreakpointManager] with the closure [init()] gives to its
    [ResizeObserver], and the timers of the page.  The debounced check
    takes no argument. *)
Record Observed := {
  manager : BreakpointManager;
  debounced : Debounced;
  timers : Timers unit
}.

(** [constructor()] with [init()]: the closure is
    [this.debounce(() => this.checkBreakpointChange(), 100)]. *)
Definition construct (win : Window) (T : Timers unit) : Observed :=
  {| manager := Manager.construct win;
     debounced := debounce checkLabel 100;
     timers := T |}.

(** Whether the observer still reports size changes. *)
Definition isObserving (m : BreakpointManager) : bool :=
  match resizeObserver m with
  | Some o => observing o
  | None => false
  end.

(** What happens to the manager: the observer sees [document.body]
    change size; the event loop runs a timer, at a moment when the
    window is [win]; a public method is called from outside; other code
    sets a timer. *)
Inductive Happening :=
  | SizeObserved (now : Z)
  | TimerRuns (handle : nat) (now : Z) (win : Window)
  | MethodCalled (a : action)
  | OtherTimer (f : nat) (now delay : Z).

Definition happen (h : Happening) (s : Observed) : Observed * list Event :=
  match h with
  | SizeObserved now =>
      if isObserving (manager s) then
        let '(d, T) := call tt now (debounced s, timers s) in
        ({| manager := manager s; debounced := d; timers := T |}, [])
      else (s, [])
  | TimerRuns handle now win =>
      match expire handle now (timers s) with
      | Some (fired, T') =>
          if (firedCallee fired =? checkLabel)%nat then
            let '(m', trace) := checkBreakpointChange win (manager s) in
            ({| manager := m'; debounced := debounced s; timers := T' |},
             trace)
          else
            ({| manager := manager s; debounced := debounced s;
                timers := T' |}, [])
      | None => (s, [])
      end
  | MethodCalled a =>
      ({| manager := perform (manager s) a; debounced := debounced s;
          timers := timers s |}, [])
  | OtherTimer f now delay =>
      ({| manager := manager s; debounced := debounced s;
          timers := snd (setTimeout f tt now delay (timers s)) |}, [])
  end.

Fixpoint happenAll (hs : list Happening) (s : Observed)
    : Observed * list Event :=
  match hs with
  | [] => (s, [])
  | h :: rest =>
      let '(s1, t1) := happen h s in
      let '(s2, t2) := happenAll rest s1 in
      (s2, t1 ++ t2)
  end.

(** The closure and the timers fit, in the sense of [ownsItsTimer]. *)
Definition wellTimed (s : Observed) : Prop :=
  ownsItsTimer (debounced s, timers s)
  ∧ func (debounced s) = checkLabel.

(** Other code sets timers for its own functions only. *)
Definition foreignTimer (h : Happening) : Prop :=
  match h with
  | OtherTimer f _ _ => f ≠ checkLabel
  | _ => True
  end.

End Observer.

(* ================================================================== *)
(** * Notions used to state properties of whole sessions *)
(* ================================================================== *)

Module Sessions.
Import Breakpoints Manager.

(** The window of the last notification of a run, if there was one. *)
Fixpoint lastNotified (steps : list Step) : option Window :=
  match steps with
  | [] => None
  | s :: rest =>
      match lastNotified rest with
      | Some win => Some win
      | None =>
          match s with
          | Notified win => Some win
          | Called _ => None
          end
      end
  end.

(** Callbacks that never call back into the manager. *)
Definition passiveList (arr : list callback) : Prop :=
  Forall (λ cb, cb_body cb = []) arr.

Definition passive (c : Callbacks) : Prop :=
  passiveList (change c)
  ∧ (∀ name arr, enter c !! name = Some arr → passiveList arr)
  ∧ (∀ name arr, exit c !! name = Some arr → passiveList arr).

(** [el.classList.contains(token)] *)
Definition hasClass (token : string) (el : Nav.Element) : bool :=
  existsb (String.eqb token) (Nav.classList el).

(** The markers of the menu agree with the field [isOpen]. *)
Definition coherent (s : Nav.ResponsiveNav) : Prop :=
  hasClass "is-open" (Nav.menu s) = Nav.isOpen s
  ∧ hasClass "is-active" (Nav.toggle s) = Nav.isOpen s
  ∧ Nav.getAttribute "aria-expanded" (Nav.toggle s)
    = Some (if Nav.isOpen s then "true" else "false").

(** The page is scroll-locked only while the menu is open. *)
Definition lockedOnlyWhenOpen (s : Nav.ResponsiveNav) : Prop :=
  Nav.bodyOverflow s = "hidden" → Nav.isOpen s = true.

(** A sequence of interactions with the navigation. *)
Definition interact (interactions : list Nav.Interaction)
    (s : Nav.ResponsiveNav) : Nav.ResponsiveNav :=
  fold_left (λ s i, fst (Nav.handle i s)) interactions s.

(** The viewport turned by a quarter. *)
Definition rotated (b : Device.Browser) : Device.Browser :=
  {| Device.window := {| innerWidth := innerHeight (Device.window b);
                         innerHeight := innerWidth (Device.window b) |};
     Device.ontouchstart := Device.ontouchstart b;
     Device.maxTouchPoints := Device.maxTouchPoints b;
     Device.msMaxTouchPoints := Device.msMaxTouchPoints b;
     Device.devicePixelRatio := Device.devicePixelRatio b |}.

(** The entries [addAll] creates for [inputs], oldest first, when the
    first node is numbered [first]. *)
Definition entriesFrom (first : nat) (inputs : list Log.LogInput)
    : list Log.Node :=
  imap (λ k i, Log.LiElement (first + k)
                 (Log.entryText (Log.timestamp i) (Log.changedFrom i)
                                (Log.changedTo i))) inputs.

(** The characters a number is written with: the minus sign and the
    ten digits. *)
Definition numeric (c : Ascii.ascii) : Prop :=
  c = Ascii.ascii_of_nat 45 ∨ (48 ≤ Ascii.nat_of_ascii c ≤ 57)%nat.

(** The manager of a [ResponsiveApp] is private to it: its registries
    hold the app's change listener and nothing else. *)
Definition appRegistry (app : App.ResponsiveApp) : Prop :=
  callbacks (App.breakpointManager app)
  = {| change := [App.appCallback]; enter := ∅; exit := ∅ |}.

(** The breakpoint indicator, when present, shows the manager's current
    breakpoint. *)
Definition indicatorCurrent (app : App.ResponsiveApp) : Prop :=
  ∀ text, Display.currentBreakpointEl (App.panel app) = Some text →
          text = Log.toUpperCase
                   (currentBreakpoint (App.breakpointManager app)).

Definition isBreakpointChanged (line : App.ConsoleLine) : bool :=
  match line with
  | App.BreakpointChanged _ => true
  | _ => false
  end.

End Sessions.

(* ================================================================== *)
(** * Properties of the breakpoint table *)
(* ================================================================== *)

Module BreakpointFacts.
Import Breakpoints.

(** ** Sanity checks on concrete inputs *)

Example getCurrentBreakpoint_samples :
  map getCurrentBreakpoint
      [0; 575; 576; 767; 768; 1023; 1024; 1279; 1280; 1535; 1536; 2000]
  = ["xs"; "xs"; "sm"; "sm"; "md"; "md"; "lg"; "lg"; "xl"; "xl"; "xxl"; "xxl"].
Proof. reflexivity. Qed.

Example indexOf_samples :
  map (indexOf breakpointNames) ["xs"; "md"; "xxl"; "huge"] = [0; 2; 5; -1].
Proof. reflexivity. Qed.

(** ** The scan *)

Lemma scanBreakpoints_snoc table entry width current :
  scanBreakpoints (table ++ [entry]) width current
  = keepIfReached width (scanBreakpoints table width current) entry.
Proof. unfold scanBreakpoints. by rewrite fold_left_app. Qed.

(** The scan returns the running value or a name of the table. *)
Lemma scanBreakpoints_result table width current :
  scanBreakpoints table width current = current
  ∨ scanBreakpoints table width current ∈ map fst table.
Proof.
  induction table as [|[name minWidth] table IH] using rev_ind.
  - by left.
  - rewrite scanBreakpoints_snoc, map_app. simpl.
    destruct (width >=? minWidth).
    + right. apply elem_of_app. right. constructor.
    + destruct IH as [IH|IH]; [by left | right].
      apply elem_of_app. by left.
Qed.

(** Entries the width does not reach leave the running value alone. *)
Lemma scanBreakpoints_unreached table width current :
  Forall (λ entry, width < entry.2) table →
  scanBreakpoints table width current = current.
Proof.
  intros H. revert current.
  induction H as [|[name minWidth] table Hlt _ IH]; intros current; [done|].
  unfold scanBreakpoints in *. simpl in *.
  destruct (Z.geb_spec width minWidth); [lia | apply IH].
Qed.

(** The scan keeps the last entry the width reaches. *)
Lemma scanBreakpoints_last_reached before name minWidth after width current :
  minWidth ≤ width →
  Forall (λ entry, width < entry.2) after →
  scanBreakpoints (before ++ (name, minWidth) :: after) width current = name.
Proof.
  intros Hle Hafter. unfold scanBreakpoints.
  rewrite fold_left_app. simpl.
  destruct (Z.geb_spec width minWidth); [|lia].
  by apply scanBreakpoints_unreached.
Qed.

(** Band by band, what [getCurrentBreakpoint] returns. *)
Lemma getCurrentBreakpoint_bands w :
  getCurrentBreakpoint w =
    if w <? 576 then "xs"
    else if w <? 768 then "sm"
    else if w <? 1024 then "md"
    else if w <? 1280 then "lg"
    else if w <? 1536 then "xl"
    else "xxl".
Proof.
  unfold getCurrentBreakpoint, scanBreakpoints, breakpoints, keepIfReached.
  cbn [fold_left].
  repeat match goal with
         | |- context [?a >=? ?b] => destruct (Z.geb_spec a b)
         | |- context [?a <? ?b] => destruct (Z.ltb_spec a b)
         end; first [reflexivity | lia].
Qed.

Lemma getCurrentBreakpoint_in_table w :
  getCurrentBreakpoint w ∈ breakpointNames.
Proof.
  rewrite getCurrentBreakpoint_bands. unfold breakpointNames, breakpoints.
  cbn [map fst].
  repeat match goal with
         | |- context [?a <? ?b] => destruct (a <? b)
         end; repeat first [apply list_elem_of_here | apply list_elem_of_further].
Qed.

(** ** [indexOf] against list positions *)

Lemma indexOfFrom_shift names x i :
  (indexOfFrom names x i = -1 ∧ indexOfFrom names x 0 = -1)
  ∨ (indexOfFrom names x i = indexOfFrom names x 0 + i
     ∧ 0 ≤ indexOfFrom names x 0).
Proof.
  revert i. induction names as [|n names IH]; intros i; simpl.
  - by left.
  - destruct (String.eqb n x); [right; lia|].
    destruct (IH (i + 1)) as [[? ?]|[? ?]], (IH (0 + 1)) as [[? ?]|[? ?]];
      first [left; lia | right; lia].
Qed.

(** A name that does not occur is reported at [-1]. *)
Lemma indexOf_not_found names x : x ∉ names → indexOf names x = -1.
Proof.
  unfold indexOf. generalize 0.
  induction names as [|n names IH]; intros i Hx; simpl; [done|].
  destruct (String.eqb_spec n x) as [->|_].
  - exfalso. apply Hx. constructor.
  - apply IH. intros ?. apply Hx. by constructor.
Qed.

(** A name that occurs is reported at a position of the list. *)
Lemma indexOf_found names x : x ∈ names → 0 ≤ indexOf names x.
Proof.
  unfold indexOf. intros Hx.
  assert (∀ i, 0 ≤ i → i ≤ indexOfFrom names x i) as H; [|by apply H].
  induction names as [|n names IH]; intros i Hi; simpl.
  - by apply elem_of_nil in Hx.
  - destruct (String.eqb_spec n x) as [->|Hne]; [lia|].
    apply elem_of_cons in Hx as [->|Hx]; [done|].
    specialize (IH Hx (i + 1)). lia.
Qed.

(** Without duplicates, [indexOf] is the position of the name. *)
Lemma indexOf_lookup names x (r : nat) :
  NoDup names → names !! r = Some x → indexOf names x = Z.of_nat r.
Proof.
  unfold indexOf. intros Hnd. revert r.
  induction Hnd as [|n names Hn Hnd IH]; intros r Hr; [done|].
  simpl. destruct r as [|r]; simpl in Hr.
  - injection Hr as ->. by rewrite String.eqb_refl.
  - destruct (String.eqb_spec n x) as [->|_].
    + exfalso. apply Hn. by eapply list_elem_of_lookup_2.
    + specialize (IH r Hr).
      destruct (indexOfFrom_shift names x (0 + 1)) as [[? ?]|[? ?]]; lia.
Qed.

Lemma breakpointNames_NoDup : NoDup breakpointNames.
Proof.
  unfold breakpointNames, breakpoints. cbn [map fst].
  repeat (apply NoDup_cons; split;
          [rewrite ?elem_of_cons, elem_of_nil; intros H;
           repeat destruct H as [H|H]; done|]).
  apply NoDup_nil_2.
Qed.

Lemma hasRank_unique name r1 r2 :
  hasRank name r1 → hasRank name r2 → r1 = r2.
Proof.
  unfold hasRank. intros H1 H2.
  by eapply NoDup_lookup; [apply breakpointNames_NoDup| |].
Qed.

Lemma hasRank_indexOf name r :
  hasRank name r → indexOf breakpointNames name = Z.of_nat r.
Proof. apply indexOf_lookup, breakpointNames_NoDup. Qed.

(** ** The claims about [getCurrentBreakpoint], [isUp] and [isDown] *)

(** C1. For every width [w >= 0], [getCurrentBreakpoint] returns the name
    of the widest breakpoint of the table whose threshold is at most [w]:
    xs on [0,575], sm on [576,767], md on [768,1023], lg on [1024,1279],
    xl on [1280,1535] and xxl from 1536 on; the result is always one of
    the six names, never null. *)
Theorem getCurrentBreakpoint_widest (w : Z) :
  0 ≤ w →
  (∃ t, (getCurrentBreakpoint w, t) ∈ breakpoints
        ∧ t ≤ w
        ∧ ∀ name' t', (name', t') ∈ breakpoints → t' ≤ w → t' ≤ t)
  ∧ (w ≤ 575 → getCurrentBreakpoint w = "xs")
  ∧ (576 ≤ w ≤ 767 → getCurrentBreakpoint w = "sm")
  ∧ (768 ≤ w ≤ 1023 → getCurrentBreakpoint w = "md")
  ∧ (1024 ≤ w ≤ 1279 → getCurrentBreakpoint w = "lg")
  ∧ (1280 ≤ w ≤ 1535 → getCurrentBreakpoint w = "xl")
  ∧ (1536 ≤ w → getCurrentBreakpoint w = "xxl")
  ∧ getCurrentBreakpoint w ∈ breakpointNames.
Proof.
  intros Hw. split; [|split_and!].
  - rewrite getCurrentBreakpoint_bands.
    assert (∀ name' t', (name', t') ∈ breakpoints →
              t' = 0 ∨ t' = 576 ∨ t' = 768 ∨ t' = 1024 ∨ t' = 1280
              ∨ t' = 1536) as Htable.
    { intros name' t'. unfold breakpoints.
      rewrite !elem_of_cons, elem_of_nil. intros H.
      repeat destruct H as [H|H]; try done; injection H as -> ->; tauto. }
    repeat match goal with
           | |- context [?a <? ?b] => destruct (Z.ltb_spec a b)
           end;
      eexists; (split; [unfold breakpoints;
                 repeat first [apply list_elem_of_here
                              | apply list_elem_of_further] |]);
      (split; [lia|]); intros name' t' Hin Hle;
      destruct (Htable _ _ Hin) as [?|[?|[?|[?|[?|?]]]]]; lia.
  - intros. rewrite getCurrentBreakpoint_bands.
    destruct (Z.ltb_spec w 576); [done | lia].
  - intros. rewrite getCurrentBreakpoint_bands.
    destruct (Z.ltb_spec w 576); [lia|].
    destruct (Z.ltb_spec w 768); [done | lia].
  - intros. rewrite getCurrentBreakpoint_bands.
    destruct (Z.ltb_spec w 576); [lia|].
    destruct (Z.ltb_spec w 768); [lia|].
    destruct (Z.ltb_spec w 1024); [done | lia].
  - intros. rewrite getCurrentBreakpoint_bands.
    destruct (Z.ltb_spec w 576); [lia|].
    destruct (Z.ltb_spec w 768); [lia|].
    destruct (Z.ltb_spec w 1024); [lia|].
    destruct (Z.ltb_spec w 1280); [done | lia].
  - intros. rewrite getCurrentBreakpoint_bands.
    destruct (Z.ltb_spec w 576); [lia|].
    destruct (Z.ltb_spec w 768); [lia|].
    destruct (Z.ltb_spec w 1024); [lia|].
    destruct (Z.ltb_spec w 1280); [lia|].
    destruct (Z.ltb_spec w 1536); [done | lia].
  - intros. rewrite getCurrentBreakpoint_bands.
    destruct (Z.ltb_spec w 576); [lia|].
    destruct (Z.ltb_spec w 768); [lia|].
    destruct (Z.ltb_spec w 1024); [lia|].
    destruct (Z.ltb_spec w 1280); [lia|].
    destruct (Z.ltb_spec w 1536); [lia | done].
  - apply getCurrentBreakpoint_in_table.
Qed.

Lemma getCurrentBreakpoint_widest_witness :
  getCurrentBreakpoint 800 = "md" ∧ getCurrentBreakpoint 800 ∈ breakpointNames.
Proof.
  pose proof (getCurrentBreakpoint_widest 800 ltac:(lia)) as H.
  destruct H as (_ & _ & _ & Hmd & _ & _ & _ & Hin).
  split; [apply Hmd; lia | exact Hin].
Defined.

(** The rank of the result, read off the bands. *)
Lemma getCurrentBreakpoint_rank w :
  hasRank (getCurrentBreakpoint w)
    (if w <? 576 then 0%nat else if w <? 768 then 1%nat
     else if w <? 1024 then 2%nat else if w <? 1280 then 3%nat
     else if w <? 1536 then 4%nat else 5%nat).
Proof.
  rewrite getCurrentBreakpoint_bands. unfold hasRank.
  repeat match goal with
         | |- context [?a <? ?b] => destruct (a <? b)
         end; reflexivity.
Qed.

(** C2. For widths [0 <= w1 <= w2], [getCurrentBreakpoint] returns for
    each of them one name, which has exactly one rank in the table, and
    the rank of the result for [w1] is at most the rank of the result
    for [w2]. *)
Theorem getCurrentBreakpoint_monotone (w1 w2 : Z) :
  0 ≤ w1 → w1 ≤ w2 →
  ∃ r1 r2 : nat,
    hasRank (getCurrentBreakpoint w1) r1
    ∧ hasRank (getCurrentBreakpoint w2) r2
    ∧ (∀ r, hasRank (getCurrentBreakpoint w1) r → r = r1)
    ∧ (∀ r, hasRank (getCurrentBreakpoint w2) r → r = r2)
    ∧ (r1 ≤ r2)%nat.
Proof.
  intros H0 Hle.
  pose proof (getCurrentBreakpoint_rank w1) as R1.
  pose proof (getCurrentBreakpoint_rank w2) as R2.
  eexists _, _. split; [exact R1|]. split; [exact R2|].
  split; [intros r Hr; by eapply hasRank_unique|].
  split; [intros r Hr; by eapply hasRank_unique|].
  clear R1 R2.
  repeat match goal with
         | |- context [?a <? ?b] => destruct (Z.ltb_spec a b)
         end; lia.
Qed.

Lemma getCurrentBreakpoint_monotone_witness :
  ∃ r1 r2 : nat,
    hasRank (getCurrentBreakpoint 600) r1
    ∧ hasRank (getCurrentBreakpoint 1300) r2
    ∧ (∀ r, hasRank (getCurrentBreakpoint 600) r → r = r1)
    ∧ (∀ r, hasRank (getCurrentBreakpoint 1300) r → r = r2)
    ∧ (r1 ≤ r2)%nat.
Proof. apply (getCurrentBreakpoint_monotone 600 1300); lia. Defined.

(** C5. For a target [t] of the table and a current breakpoint [c],
    [isUp t] holds exactly when the rank of [c] is at least the rank of
    [t], [isDown t] exactly when it is at most the rank of [t], and both
    hold exactly when [c] is [t]. *)
Theorem isUp_isDown_rank (c t : BreakpointName) (rc rt : nat) :
  hasRank c rc → hasRank t rt →
  (isUp c t = true ↔ (rt ≤ rc)%nat)
  ∧ (isDown c t = true ↔ (rc ≤ rt)%nat)
  ∧ (isUp c t = true ∧ isDown c t = true ↔ c = t).
Proof.
  intros Hc Ht. unfold isUp, isDown.
  rewrite (hasRank_indexOf _ _ Hc), (hasRank_indexOf _ _ Ht).
  rewrite Z.geb_le, Z.leb_le. split_and!; [lia | lia |].
  split.
  - intros [? ?]. assert (rc = rt) as -> by lia.
    unfold hasRank in *. congruence.
  - intros ->. rewrite (hasRank_unique _ _ _ Hc Ht). lia.
Qed.

Lemma isUp_isDown_rank_witness :
  (isUp "lg" "md" = true ↔ (2 ≤ 3)%nat)
  ∧ (isDown "lg" "md" = true ↔ (3 ≤ 2)%nat)
  ∧ (isUp "lg" "md" = true ∧ isDown "lg" "md" = true ↔ "lg" = "md").
Proof. apply (isUp_isDown_rank "lg" "md" 3 2); reflexivity. Defined.

(** C6, as the specification states it, fails: with the current
    breakpoint xs, [isUp] of a name outside the table is true. *)
Lemma isUp_unknown_counterexample :
  ("tablet" ∉ breakpointNames)
  ∧ ("xs" ∈ breakpointNames)
  ∧ ¬ (isUp "xs" "tablet" = false ∧ isDown "xs" "tablet" = false).
Proof.
  split_and!.
  - unfold breakpointNames, breakpoints. cbn [map fst].
    rewrite !elem_of_cons, elem_of_nil. intros H.
    repeat destruct H as [H|H]; done.
  - apply list_elem_of_here.
  - intros [Hup _]. vm_compute in Hup. discriminate.
Qed.

(** C6, amended. For a name [n] outside the table and a current
    breakpoint of the table, [n] is ranked [-1], below every rank of the
    table: [isUp n] is true and [isDown n] is false.  Both calls return a
    boolean; nothing is thrown. *)
Theorem isUp_isDown_unknown (c n : BreakpointName) :
  c ∈ breakpointNames → n ∉ breakpointNames →
  indexOf breakpointNames n = -1
  ∧ isUp c n = true
  ∧ isDown c n = false.
Proof.
  intros Hc Hn. unfold isUp, isDown.
  pose proof (indexOf_found _ _ Hc).
  rewrite (indexOf_not_found _ _ Hn).
  split_and!; [done | apply Z.geb_le; lia | apply Z.leb_gt; lia].
Qed.

Lemma isUp_isDown_unknown_witness :
  indexOf breakpointNames "tablet" = -1
  ∧ isUp "md" "tablet" = true
  ∧ isDown "md" "tablet" = false.
Proof.
  apply (isUp_isDown_unknown "md" "tablet").
  - do 2 apply list_elem_of_further. apply list_elem_of_here.
  - unfold breakpointNames, breakpoints. cbn [map fst].
    rewrite !elem_of_cons, elem_of_nil. intros H.
    repeat destruct H as [H|H]; done.
Defined.

End BreakpointFacts.

(* ================================================================== *)
(** * Properties of the BreakpointManager *)
(* ================================================================== *)

Module ManagerFacts.
Import Breakpoints Manager.

(** ** Sanity checks on concrete inputs *)

Example transition_sample :
  let m := onEnter "md" (Callback 3 [])
             (onExit "sm" (Callback 2 [])
                (onChange (Callback 1 [])
                   (construct {| innerWidth := 600; innerHeight := 800 |}))) in
  let d := {| oldBreakpoint := "sm"; newBreakpoint := "md";
              width := 800; height := 600 |} in
  snd (checkBreakpointChange {| innerWidth := 800; innerHeight := 600 |} m)
  = [ Invoked OnChange 1 (Some d) "md" (Some "sm");
      Invoked (OnExit "sm") 2 None "md" (Some "sm");
      Invoked (OnEnter "md") 3 None "md" (Some "sm");
      Dispatched d;
      Logged (Some "sm") "md" ].
Proof. vm_compute. reflexivity. Qed.

(** A change callback that registers an exit callback sees it run in the
    same turn; one that registers a change callback does not. *)
Example reentrant_sample :
  let late := Callback 9 [] in
  let m := onChange (Callback 1 [CallOnExit "sm" late; CallOnChange late])
             (construct {| innerWidth := 600; innerHeight := 800 |}) in
  map (λ e, match e with Invoked k id _ _ _ => Some (k, id) | _ => None end)
      (invocations
         (snd (checkBreakpointChange
                 {| innerWidth := 800; innerHeight := 600 |} m)))
  = [Some (OnChange, 1%nat); Some (OnExit "sm", 9%nat)].
Proof. vm_compute. reflexivity. Qed.

(** A change callback that calls [destroy()] does not stop the change
    callbacks after it in the same loop, but the exit and enter phases of
    the turn find empty registries. *)
Example destroy_inside_sample :
  let m := onEnter "md" (Callback 4 [])
             (onExit "sm" (Callback 3 [])
                (onChange (Callback 2 [])
                   (onChange (Callback 1 [CallDestroy])
                      (construct {| innerWidth := 600;
                                    innerHeight := 800 |})))) in
  map (λ e, match e with Invoked k id _ _ _ => Some (k, id) | _ => None end)
      (invocations
         (snd (checkBreakpointChange
                 {| innerWidth := 800; innerHeight := 600 |} m)))
  = [Some (OnChange, 1%nat); Some (OnChange, 2%nat)].
Proof. vm_compute. reflexivity. Qed.

(** ** Callbacks cannot touch the breakpoint fields *)

Lemma perform_current m a :
  currentBreakpoint (perform m a) = currentBreakpoint m.
Proof. by destruct a. Qed.

Lemma perform_previous m a :
  previousBreakpoint (perform m a) = previousBreakpoint m.
Proof. by destruct a. Qed.

Lemma runBody_fields body m :
  currentBreakpoint (runBody body m) = currentBreakpoint m
  ∧ previousBreakpoint (runBody body m) = previousBreakpoint m.
Proof.
  unfold runBody. revert m.
  induction body as [|a body IH]; intros m; simpl; [done|].
  destruct (IH (perform m a)) as [-> ->].
  by rewrite perform_current, perform_previous.
Qed.

Lemma runAll_fields arr m :
  currentBreakpoint (runAll arr m) = currentBreakpoint m
  ∧ previousBreakpoint (runAll arr m) = previousBreakpoint m.
Proof.
  unfold runAll. revert m.
  induction arr as [|cb arr IH]; intros m; simpl; [done|].
  destruct (IH (runBody (cb_body cb) m)) as [-> ->].
  apply runBody_fields.
Qed.

(** ** The [forEach] loop *)

Lemma forEach_spec arr kind arg m trace :
  forEach arr kind arg (m, trace)
  = (runAll arr m,
     trace ++ map (λ cb, Invoked kind (cb_id cb) arg
                           (currentBreakpoint m) (previousBreakpoint m)) arr).
Proof.
  revert m trace. induction arr as [|cb arr IH]; intros m trace; simpl.
  - by rewrite app_nil_r.
  - rewrite IH. destruct (runBody_fields (cb_body cb) m) as [-> ->].
    by rewrite <- app_assoc.
Qed.

(** ** Registration appends *)

Lemma pushAt_lookup bp cb registry :
  pushAt bp cb registry !! bp = Some (default [] (registry !! bp) ++ [cb]).
Proof.
  unfold pushAt. destruct (registry !! bp) as [arr|] eqn:E.
  - rewrite E. by rewrite lookup_insert_eq.
  - rewrite lookup_insert_eq. by rewrite lookup_insert_eq.
Qed.

Lemma pushAt_lookup_ne bp bp' cb registry :
  bp ≠ bp' → pushAt bp cb registry !! bp' = registry !! bp'.
Proof.
  intros Hne. unfold pushAt. destruct (registry !! bp) as [arr|] eqn:E.
  - rewrite E. by rewrite lookup_insert_ne.
  - rewrite lookup_insert_eq. by rewrite !lookup_insert_ne.
Qed.

(** ** One notification *)

(** The unchanged branch. *)
Lemma checkBreakpointChange_same win m :
  getCurrentBreakpoint (innerWidth win) = currentBreakpoint m →
  checkBreakpointChange win m = (m, []).
Proof.
  intros E. unfold checkBreakpointChange.
  by rewrite E, String.eqb_refl.
Qed.

(** The changed branch, phase by phase. *)
Lemma checkBreakpointChange_changed win m :
  getCurrentBreakpoint (innerWidth win) ≠ currentBreakpoint m →
  let old := currentBreakpoint m in
  let new := getCurrentBreakpoint (innerWidth win) in
  let detail := {| oldBreakpoint := old; newBreakpoint := new;
                   width := innerWidth win; height := innerHeight win |} in
  let m1 := recordTransition new m in
  let m2 := runAll (change (callbacks m)) m1 in
  let exits := if truthy (Some old)
               then registered (exit (callbacks m2)) old else [] in
  let m3 := runAll exits m2 in
  let enters := registered (enter (callbacks m3)) new in
  checkBreakpointChange win m
  = (runAll enters m3,
     map (λ cb, Invoked OnChange (cb_id cb) (Some detail) new (Some old))
         (change (callbacks m))
     ++ map (λ cb, Invoked (OnExit old) (cb_id cb) None new (Some old)) exits
     ++ map (λ cb, Invoked (OnEnter new) (cb_id cb) None new (Some old)) enters
     ++ [Dispatched detail; Logged (Some old) new]).
Proof.
  intros Hne old new detail m1 m2 exits m3 enters.
  unfold checkBreakpointChange. fold new.
  destruct (String.eqb_spec new (currentBreakpoint m)) as [E|_]; [done|].
  cbn [negb]. fold m1.
  change (buildDetail win m1) with detail.
  change (callbacks m1) with (callbacks m).
  rewrite forEach_spec. cbn [fst app]. fold m2.
  change (currentBreakpoint m1) with new.
  change (previousBreakpoint m1) with (Some old).
  destruct (runAll_fields (change (callbacks m)) m1) as [C2 P2].
  fold m2 in C2, P2.
  change (currentBreakpoint m1) with new in C2.
  change (previousBreakpoint m1) with (Some old) in P2.
  destruct (runAll_fields exits m2) as [C3 P3]. fold m3 in C3, P3.
  rewrite C2 in C3. rewrite P2 in P3.
  set (changes := map (λ cb, Invoked OnChange (cb_id cb) (Some detail)
                               new (Some old)) (change (callbacks m))).
  assert ((if truthy (previousBreakpoint m2) then
             match previousBreakpoint m2 with
             | Some prev =>
                 match exit (callbacks m2) !! prev with
                 | Some arr => forEach arr (OnExit prev) None (m2, changes)
                 | None => (m2, changes)
                 end
             | None => (m2, changes)
             end
           else (m2, changes))
          = (m3, changes
                 ++ map (λ cb, Invoked (OnExit old) (cb_id cb) None
                                 new (Some old)) exits)) as ->.
  { rewrite P2. unfold m3, exits, registered.
    destruct (truthy (Some old)); simpl; [|by rewrite app_nil_r].
    destruct (exit (callbacks m2) !! old) as [arr|]; simpl.
    - rewrite forEach_spec. by rewrite C2, P2.
    - by rewrite app_nil_r. }
  cbn [fst]. rewrite C3.
  unfold enters, registered.
  destruct (enter (callbacks m3) !! new) as [arr|]; simpl.
  - rewrite forEach_spec. rewrite C3, P3.
    destruct (runAll_fields arr m3) as [-> ->].
    rewrite C3, P3. by rewrite <- !app_assoc.
  - rewrite C3, P3. by rewrite <- !app_assoc.
Qed.

(** A name of the table is a non-empty string, hence truthy. *)
Lemma table_name_truthy name :
  name ∈ breakpointNames → truthy (Some name) = true.
Proof.
  unfold breakpointNames, breakpoints. cbn [map fst].
  rewrite !elem_of_cons, elem_of_nil. intros H.
  repeat destruct H as [H|H]; try done; by subst.
Qed.

(** The current breakpoint stays a name of the table. *)
Lemma checkBreakpointChange_current win m :
  currentBreakpoint m ∈ breakpointNames →
  currentBreakpoint (fst (checkBreakpointChange win m)) ∈ breakpointNames.
Proof.
  intros Hm.
  destruct (decide (getCurrentBreakpoint (innerWidth win)
                    = currentBreakpoint m)) as [E|Hne].
  - by rewrite checkBreakpointChange_same.
  - rewrite checkBreakpointChange_changed by done. cbn [fst].
    repeat match goal with
           | |- context [runAll ?a ?x] =>
               destruct (runAll_fields a x) as [-> _]
           end.
    apply BreakpointFacts.getCurrentBreakpoint_in_table.
Qed.

(** ** Reading traces *)

Lemma dispatches_app t1 t2 :
  dispatches (t1 ++ t2) = dispatches t1 ++ dispatches t2.
Proof. apply List.filter_app. Qed.

Lemma invocations_app t1 t2 :
  invocations (t1 ++ t2) = invocations t1 ++ invocations t2.
Proof. apply List.filter_app. Qed.

Lemma dispatches_calls (f : callback → Event) arr :
  (∀ cb, isDispatch (f cb) = false) → dispatches (map f arr) = [].
Proof.
  intros Hf. induction arr as [|cb arr IH]; simpl; [done|].
  by rewrite Hf.
Qed.

(** One turn is consistent in the sense of [consistentTurn]. *)
Lemma checkBreakpointChange_turn win m :
  getCurrentBreakpoint (innerWidth win) ≠ currentBreakpoint m →
  consistentTurn (snd (checkBreakpointChange win m)).
Proof.
  intros Hne. rewrite checkBreakpointChange_changed by done. cbn [snd].
  eexists. split_and!.
  2: { rewrite !dispatches_app, !dispatches_calls by done. reflexivity. }
  - simpl. congruence.
  - rewrite !Forall_app. split_and!.
    + apply Forall_forall. intros e (cb & -> & _)%list_elem_of_fmap.
      simpl. auto.
    + apply Forall_forall. intros e (cb & -> & _)%list_elem_of_fmap.
      simpl. auto.
    + apply Forall_forall. intros e (cb & -> & _)%list_elem_of_fmap.
      simpl. auto.
    + repeat constructor.
Qed.

(** Calls from outside leave the current breakpoint alone, so it stays
    a name of the table along a whole run. *)
Lemma run_current steps m :
  currentBreakpoint m ∈ breakpointNames →
  currentBreakpoint (fst (run steps m)) ∈ breakpointNames.
Proof.
  revert m. induction steps as [|[win|a] steps IH]; intros m Hm; simpl.
  - done.
  - pose proof (checkBreakpointChange_current win m Hm) as H1.
    destruct (checkBreakpointChange win m) as [m1 t1]. simpl in H1.
    specialize (IH m1 H1). by destruct (run steps m1).
  - apply IH. by rewrite perform_current.
Qed.

(** ** The claims about change detection *)

(** C3. On a viewport-size notification, when the recomputed breakpoint
    is the stored one, nothing is emitted, no callback runs and the
    manager is unchanged; when it differs, exactly one change record is
    produced: it is dispatched once, it is the record every change
    callback receives, its old name is the breakpoint held before the
    notification and its new name the recomputed one. *)
Theorem checkBreakpointChange_emits (win : Window) (m : BreakpointManager) :
  (getCurrentBreakpoint (innerWidth win) = currentBreakpoint m →
     checkBreakpointChange win m = (m, []))
  ∧ (getCurrentBreakpoint (innerWidth win) ≠ currentBreakpoint m →
     ∃ d, dispatches (snd (checkBreakpointChange win m)) = [Dispatched d]
          ∧ oldBreakpoint d = currentBreakpoint m
          ∧ newBreakpoint d = getCurrentBreakpoint (innerWidth win)
          ∧ width d = innerWidth win
          ∧ height d = innerHeight win
          ∧ ∀ e d', e ∈ snd (checkBreakpointChange win m) →
                    carried e = Some d' → d' = d).
Proof.
  split; [apply checkBreakpointChange_same|].
  intros Hne. rewrite checkBreakpointChange_changed by done. cbn [snd].
  eexists. split_and!.
  - rewrite !dispatches_app, !dispatches_calls by done. reflexivity.
  - reflexivity.
  - reflexivity.
  - reflexivity.
  - reflexivity.
  - intros e d'. rewrite !elem_of_app, !list_elem_of_fmap.
    rewrite !elem_of_cons, elem_of_nil.
    intros [(cb & -> & _)|[(cb & -> & _)|[(cb & -> & _)|[->|[->|[]]]]]];
      simpl; congruence.
Qed.

Lemma checkBreakpointChange_emits_witness :
  checkBreakpointChange {| innerWidth := 700; innerHeight := 900 |}
    (construct {| innerWidth := 600; innerHeight := 900 |})
  = (construct {| innerWidth := 600; innerHeight := 900 |}, []).
Proof.
  apply (checkBreakpointChange_emits
           {| innerWidth := 700; innerHeight := 900 |}
           (construct {| innerWidth := 600; innerHeight := 900 |})).
  reflexivity.
Defined.

(** C4. On a breakpoint transition the callbacks run in this order: the
    change callbacks in registration order, then the exit callbacks
    registered for the previous breakpoint, then the enter callbacks
    registered for the new breakpoint; every one of them runs with the
    current and previous breakpoint fields already updated, and the
    change callbacks receive the record built from them.  Registration
    appends, so the order of each list is the registration order. *)
Theorem checkBreakpointChange_order (win : Window) (m : BreakpointManager) :
  currentBreakpoint m ∈ breakpointNames →
  getCurrentBreakpoint (innerWidth win) ≠ currentBreakpoint m →
  let old := currentBreakpoint m in
  let new := getCurrentBreakpoint (innerWidth win) in
  let detail := {| oldBreakpoint := old; newBreakpoint := new;
                   width := innerWidth win; height := innerHeight win |} in
  let m1 := recordTransition new m in
  let m2 := runAll (change (callbacks m)) m1 in
  let exits := registered (exit (callbacks m2)) old in
  let m3 := runAll exits m2 in
  let enters := registered (enter (callbacks m3)) new in
  snd (checkBreakpointChange win m)
  = map (λ cb, Invoked OnChange (cb_id cb) (Some detail) new (Some old))
        (change (callbacks m))
    ++ map (λ cb, Invoked (OnExit old) (cb_id cb) None new (Some old)) exits
    ++ map (λ cb, Invoked (OnEnter new) (cb_id cb) None new (Some old)) enters
    ++ [Dispatched detail; Logged (Some old) new]
  ∧ (∀ cb m', change (callbacks (onChange cb m'))
              = change (callbacks m') ++ [cb])
  ∧ (∀ bp cb m', registered (exit (callbacks (onExit bp cb m'))) bp
                 = registered (exit (callbacks m')) bp ++ [cb])
  ∧ (∀ bp cb m', registered (enter (callbacks (onEnter bp cb m'))) bp
                 = registered (enter (callbacks m')) bp ++ [cb]).
Proof.
  intros Hm Hne old new detail m1 m2 exits m3 enters. split_and!.
  - subst old new detail m1 m2 exits m3 enters.
    rewrite checkBreakpointChange_changed by done. cbn [snd].
    rewrite (table_name_truthy (currentBreakpoint m) Hm). reflexivity.
  - reflexivity.
  - intros bp cb m'. unfold registered, onExit. simpl.
    by rewrite pushAt_lookup.
  - intros bp cb m'. unfold registered, onEnter. simpl.
    by rewrite pushAt_lookup.
Qed.

Lemma checkBreakpointChange_order_witness :
  let m := onEnter "md" (Callback 3 [])
             (onExit "sm" (Callback 2 [])
                (onChange (Callback 1 [])
                   (construct {| innerWidth := 600; innerHeight := 800 |}))) in
  let d := {| oldBreakpoint := "sm"; newBreakpoint := "md";
              width := 800; height := 600 |} in
  snd (checkBreakpointChange {| innerWidth := 800; innerHeight := 600 |} m)
  = [ Invoked OnChange 1 (Some d) "md" (Some "sm");
      Invoked (OnExit "sm") 2 None "md" (Some "sm");
      Invoked (OnEnter "md") 3 None "md" (Some "sm");
      Dispatched d;
      Logged (Some "sm") "md" ].
Proof.
  intros m d.
  assert (currentBreakpoint m ∈ breakpointNames) as Hm.
  { apply list_elem_of_further, list_elem_of_here. }
  assert (getCurrentBreakpoint 800 ≠ currentBreakpoint m) as Hne.
  { vm_compute. discriminate. }
  destruct (checkBreakpointChange_order
              {| innerWidth := 800; innerHeight := 600 |} m Hm Hne)
    as [-> _].
  vm_compute. reflexivity.
Defined.

(** C7. After [destroy()] the three registries are empty and the observer
    is disconnected; whatever viewport-size notifications still reach the
    manager afterwards, no change, enter or exit callback is invoked. *)
Theorem destroy_silences (m : BreakpointManager) (wins : list Window) :
  change (callbacks (destroy m)) = []
  ∧ enter (callbacks (destroy m)) = ∅
  ∧ exit (callbacks (destroy m)) = ∅
  ∧ (∀ o, resizeObserver (destroy m) = Some o → observing o = false)
  ∧ invocations (snd (notifyAll wins (destroy m))) = [].
Proof.
  split_and!; try reflexivity.
  - simpl. destruct (resizeObserver m); intros o [= <-]; done.
  - assert (∀ m0, callbacks m0 = noCallbacks →
              invocations (snd (notifyAll wins m0)) = []) as H;
      [|by apply H].
    unfold notifyAll.
    induction wins as [|win wins IH]; intros m0 Hm0; simpl; [done|].
    assert (callbacks (fst (checkBreakpointChange win m0)) = noCallbacks
            ∧ invocations (snd (checkBreakpointChange win m0)) = [])
      as [Hc Ht].
    { destruct (decide (getCurrentBreakpoint (innerWidth win)
                        = currentBreakpoint m0)) as [E|Hne].
      - by rewrite checkBreakpointChange_same.
      - rewrite checkBreakpointChange_changed by done.
        destruct m0 as [cur prev obs cbs]. simpl in Hm0. subst cbs.
        unfold registered. simpl.
        destruct (negb _); simpl; by rewrite ?lookup_empty. }
    destruct (checkBreakpointChange win m0) as [m1 t1]. simpl in Hc, Ht.
    specialize (IH m1 Hc). destruct (run (map Notified wins) m1) as [m2 t2].
    simpl in *. by rewrite invocations_app, Ht, IH.
Qed.

(** C10. Along any run of the manager, the trace splits into turns, one
    per breakpoint transition; in each turn there is one change record,
    whose old and new names differ, and every callback of the turn runs
    while the stored current breakpoint is the record's new name and the
    stored previous breakpoint is the record's old name. *)
Theorem emitted_records_consistent (steps : list Step)
    (m : BreakpointManager) :
  ∃ turns, snd (run steps m) = concat turns
           ∧ Forall consistentTurn turns.
Proof.
  revert m. induction steps as [|[win|a] steps IH]; intros m; simpl.
  - by exists [].
  - destruct (IH (fst (checkBreakpointChange win m))) as (turns & E & Hall).
    destruct (decide (getCurrentBreakpoint (innerWidth win)
                      = currentBreakpoint m)) as [Heq|Hne].
    + rewrite checkBreakpointChange_same in * by done. simpl in E.
      destruct (run steps m) as [m2 t2]. by exists turns.
    + pose proof (checkBreakpointChange_turn win m Hne) as Hturn.
      destruct (checkBreakpointChange win m) as [m1 t1]. simpl in *.
      destruct (run steps m1) as [m2 t2]. simpl in *.
      exists (t1 :: turns). simpl. rewrite E. by split; [|constructor].
  - apply IH.
Qed.

End ManagerFacts.

(* ================================================================== *)
(** * Properties of the navigation menu *)
(* ================================================================== *)

Module NavFacts.
Import Nav.

(** ** Sanity checks on concrete inputs *)

Example open_then_close_sample :
  let s0 := {| toggle := {| classList := ["nav-toggle"]; attributes := ∅ |};
               menu := {| classList := ["nav-menu"]; attributes := ∅ |};
               isOpen := false; isMobile := true; mobileBreakpoint := 768;
               bodyOverflow := ""; toggleFocused := false |} in
  let s1 := fst (handle ToggleClick s0) in
  let s2 := fst (handle (KeyDown "Escape") s1) in
  (classList (menu s1), classList (toggle s1), bodyOverflow s1, isOpen s1)
  = (["nav-menu"; "is-open"], ["nav-toggle"; "is-active"], "hidden", true)
  ∧ (classList (menu s2), classList (toggle s2), bodyOverflow s2, isOpen s2,
     toggleFocused s2)
    = (["nav-menu"], ["nav-toggle"], "", false, true).
Proof. split; reflexivity. Qed.

(** ** Class lists and attributes *)

Lemma classList_remove_idem token el :
  classList_remove token (classList_remove token el)
  = classList_remove token el.
Proof.
  unfold classList_remove. simpl. f_equal.
  induction (classList el) as [|t l IH]; simpl; [done|].
  destruct (negb (String.eqb token t)) eqn:E; simpl; [|done].
  by rewrite E, IH.
Qed.

Lemma setAttribute_twice name v el :
  setAttribute name v (setAttribute name v el) = setAttribute name v el.
Proof. unfold setAttribute. simpl. by rewrite insert_insert_eq. Qed.

Lemma classList_remove_setAttribute token name v el :
  classList_remove token (setAttribute name v el)
  = setAttribute name v (classList_remove token el).
Proof. reflexivity. Qed.

Lemma classList_remove_absent token el :
  existsb (String.eqb token) (classList el) = false →
  classList_remove token el = el.
Proof.
  destruct el as [classes attrs]. unfold classList_remove. simpl.
  intros H. f_equal.
  induction classes as [|t l IH]; simpl in *; [done|].
  apply orb_false_elim in H as [-> H]. simpl. by rewrite IH.
Qed.

Lemma setAttribute_same name v el :
  getAttribute name el = Some v → setAttribute name v el = el.
Proof.
  destruct el as [classes attrs]. unfold getAttribute, setAttribute. simpl.
  intros H. f_equal. by apply insert_id.
Qed.

Lemma classList_remove_gone token el :
  existsb (String.eqb token) (classList (classList_remove token el)) = false.
Proof.
  unfold classList_remove. cbn [classList].
  induction (classList el) as [|t l IH]; [done|].
  cbn [List.filter]. destruct (String.eqb token t) eqn:E; cbn [negb]; [done|].
  cbn [existsb]. by rewrite E, IH.
Qed.

Lemma closeMenu_showsClosed s : showsClosed (fst (closeMenu s)).
Proof.
  unfold showsClosed, closeMenu.
  cbn [fst isOpen menu toggle bodyOverflow].
  split_and!; try done.
  - apply classList_remove_gone.
  - apply (classList_remove_gone "is-active" (toggle s)).
  - unfold getAttribute, setAttribute. cbn [attributes].
    apply lookup_insert_eq.
Qed.

(** A closed menu stays as it is under every interaction that can only
    close: nothing is written, not even a console line. *)
Lemma closed_menu_ignores s i :
  isOpen s = false →
  match i with
  | ToggleClick | Resized _ => True
  | _ => handle i s = (s, [])
  end.
Proof.
  intros Hs. destruct i; simpl; try done; rewrite Hs.
  - done.
  - by rewrite andb_false_r.
  - by rewrite andb_false_r.
Qed.

(** On a closed menu a resize only refreshes the mobile flag. *)
Lemma closed_menu_resize s w :
  isOpen s = false →
  handle (Resized w) s = (setMobile (w <? mobileBreakpoint s) s, []).
Proof.
  intros Hs. simpl. unfold checkViewport. simpl. rewrite Hs.
  by rewrite andb_false_r.
Qed.

(** ** The claim about opening and closing *)

(** C8, as the specification states it, fails: closing a menu that is
    already closed is not a no-op.  A navigation as the constructor
    leaves it, on markup without an aria-expanded attribute, is closed;
    [closeMenu] changes it (the attribute is written), and a second
    [closeMenu] writes the console line a second time. *)
Lemma closeMenu_closed_counterexample :
  ∃ s0,
    fst (construct ".nav"
           (Some {| foundToggle := Some {| classList := ["nav-toggle"];
                                           attributes := ∅ |};
                    foundMenu := Some {| classList := ["nav-menu"];
                                         attributes := ∅ |} |})
           500 "") = Some s0
    ∧ isOpen s0 = false
    ∧ fst (closeMenu s0) ≠ s0
    ∧ snd (closeMenu (fst (closeMenu s0))) = [MenuClosed].
Proof.
  eexists. split_and!; try reflexivity.
  intros E.
  apply (f_equal (λ s, getAttribute "aria-expanded" (toggle s))) in E.
  vm_compute in E. discriminate E.
Qed.

(** C8, amended. [openMenu] sets the toggle's aria-expanded attribute to
    "true" and sets the body overflow to "hidden" exactly when the
    navigation is in mobile mode (otherwise the overflow is left as it
    was); [closeMenu] always clears the body overflow, sets
    aria-expanded to "false" and writes its console line.  On the state
    of the navigation and of the page [closeMenu] is idempotent: closing
    twice gives the state closing once gives, and a menu that shows as
    closed is left identical; the console line is written at every call.
    No listener closes a closed menu: while [isOpen] is false, clicks
    outside, key presses and link clicks change nothing and write
    nothing, a resize only refreshes the mobile flag, and a click on the
    toggle opens. *)
Theorem openMenu_closeMenu_effects (s : ResponsiveNav) :
  getAttribute "aria-expanded" (toggle (fst (openMenu s))) = Some "true"
  ∧ bodyOverflow (fst (openMenu s))
    = (if isMobile s then "hidden" else bodyOverflow s)
  ∧ isOpen (fst (openMenu s)) = true
  ∧ getAttribute "aria-expanded" (toggle (fst (closeMenu s))) = Some "false"
  ∧ bodyOverflow (fst (closeMenu s)) = ""
  ∧ isOpen (fst (closeMenu s)) = false
  ∧ fst (closeMenu (fst (closeMenu s))) = fst (closeMenu s)
  ∧ (showsClosed s → fst (closeMenu s) = s)
  ∧ snd (closeMenu s) = [MenuClosed]
  ∧ (isOpen s = false →
     (∀ insideNav, handle (DocumentClick insideNav) s = (s, []))
     ∧ (∀ key, handle (KeyDown key) s = (s, []))
     ∧ handle LinkClick s = (s, [])
     ∧ (∀ w, handle (Resized w) s
             = (setMobile (w <? mobileBreakpoint s) s, []))
     ∧ handle ToggleClick s = openMenu s).
Proof.
  split_and!; try reflexivity.
  - unfold getAttribute. simpl. apply lookup_insert_eq.
  - unfold getAttribute. simpl. apply lookup_insert_eq.
  - unfold closeMenu. cbn [fst menu toggle isMobile mobileBreakpoint
                            toggleFocused].
    rewrite classList_remove_idem, classList_remove_setAttribute.
    by rewrite classList_remove_idem, setAttribute_twice.
  - intros (Hopen & Hmenu & Htoggle & Haria & Hflow).
    destruct s as [t mn o mob bp flow foc].
    cbn [isOpen menu toggle bodyOverflow] in *. subst o flow.
    unfold closeMenu.
    cbn [fst isOpen menu toggle bodyOverflow isMobile mobileBreakpoint
         toggleFocused].
    rewrite (classList_remove_absent _ _ Hmenu).
    rewrite (classList_remove_absent _ _ Htoggle).
    by rewrite (setAttribute_same _ _ _ Haria).
  - intros Hclosed. split_and!.
    + intros insideNav. exact (closed_menu_ignores s (DocumentClick insideNav) Hclosed).
    + intros key. exact (closed_menu_ignores s (KeyDown key) Hclosed).
    + exact (closed_menu_ignores s LinkClick Hclosed).
    + intros w. by apply closed_menu_resize.
    + cbn [handle]. unfold toggleMenu. by rewrite Hclosed.
Qed.

Lemma openMenu_closeMenu_effects_witness :
  let s := {| toggle := {| classList := ["nav-toggle"];
                           attributes := {["aria-expanded" := "false"]} |};
              menu := {| classList := ["nav-menu"]; attributes := ∅ |};
              isOpen := false; isMobile := true; mobileBreakpoint := 768;
              bodyOverflow := ""; toggleFocused := false |} in
  fst (closeMenu s) = s
  ∧ handle (KeyDown "Escape") s = (s, [])
  ∧ handle (DocumentClick false) s = (s, []).
Proof.
  intros s.
  destruct (openMenu_closeMenu_effects s)
    as (_ & _ & _ & _ & _ & _ & _ & Hshows & _ & Hlisteners).
  destruct (Hlisteners eq_refl) as (Hclick & Hkey & _).
  split_and!.
  - apply Hshows. unfold showsClosed. split_and!; reflexivity.
  - apply Hkey.
  - apply Hclick.
Defined.

End NavFacts.

(* ================================================================== *)
(** * Properties of the change log *)
(* ================================================================== *)

Module LogFacts.
Import Breakpoints Log.

(** ** Sanity checks on concrete inputs *)

Example entryText_sample :
  entryText "10:15:00" "sm" "md" = "10:15:00 - Changed from SM to MD".
Proof. reflexivity. Qed.

(** Markup white space in the list is evicted like any last child. *)
Example evict_text_node_sample :
  let u := {| breakpointLogEl :=
                Some (map (λ k, LiElement k "e") (seq 0 10) ++ [TextNode 99 " "]);
              nextNode := 100 |} in
  logNodes (addLogEntry "t" "xs" "sm" u)
  = LiElement 100 "t - Changed from XS to SM"
    :: map (λ k, LiElement k "e") (seq 0 9).
Proof. reflexivity. Qed.

(** ** The eviction loop *)

Lemma children_app l1 l2 : children (l1 ++ l2) = children l1 ++ children l2.
Proof. apply List.filter_app. Qed.

Lemma children_length_le l : (length (children l) ≤ length l)%nat.
Proof. apply List.filter_length_le. Qed.

Lemma removelast_take (l : list Node) :
  removelast l = take (pred (length l)) l.
Proof. apply removelast_firstn_len. Qed.

(** With as much fuel as there are child nodes the loop ends because its
    condition is false, and it has removed the shortest possible tail. *)
Lemma evict_spec fuel (l : list Node) :
  (length l ≤ fuel)%nat →
  ∃ k, (k ≤ length l)%nat
       ∧ evict fuel l = take k l
       ∧ (length (children (take k l)) ≤ 10)%nat
       ∧ ((k < length l)%nat →
          (10 < length (children (take (S k) l)))%nat).
Proof.
  revert l. induction fuel as [|fuel IH]; intros l Hl.
  - destruct l; [|simpl in Hl; lia].
    exists 0%nat. simpl. split_and!; [lia | done | lia | lia].
  - simpl. destruct (Nat.ltb_spec 10 (length (children l))) as [Hgt|Hle].
    + assert (l ≠ []) as Hnil by (intros ->; simpl in Hgt; lia).
      assert (length l ≠ 0%nat) as Hlen by (by destruct l).
      destruct (IH (removelast l)) as (k & Hk & E & Hc & Hmax).
      { rewrite removelast_take, length_take. lia. }
      rewrite removelast_take in *. rewrite length_take in *.
      rewrite take_take in *.
      replace (k `min` pred (length l))%nat with k in * by lia.
      exists k. split_and!; [lia | done | done |].
      intros Hlt. destruct (decide (k < pred (length l))%nat) as [Hk'|Hk'].
      * specialize (Hmax ltac:(lia)). rewrite ?take_take in Hmax.
        by replace (S k `min` pred (length l))%nat with (S k) in Hmax by lia.
      * replace (S k) with (length l) by lia. by rewrite firstn_all.
    + exists (length l). rewrite firstn_all.
      split_and!; [lia | done | done | lia].
Qed.

(** More fuel changes nothing once the loop has ended. *)
Lemma evict_stable fuel extra (l : list Node) :
  (length l ≤ fuel)%nat → evict (fuel + extra) l = evict fuel l.
Proof.
  revert l. induction fuel as [|fuel IH]; intros l Hl.
  - destruct l; [|simpl in Hl; lia]. by destruct extra.
  - simpl. destruct (10 <? length (children l))%nat; [|done].
    apply IH. rewrite removelast_take, length_take. lia.
Qed.

(** What one insertion does to a log whose element is present. *)
Lemma addLogEntry_spec ts old new u l :
  breakpointLogEl u = Some l →
  let entry := LiElement (nextNode u) (entryText ts old new) in
  ∃ k, (1 ≤ k ≤ S (length l))%nat
       ∧ addLogEntry ts old new u
         = {| breakpointLogEl := Some (take k (entry :: l));
              nextNode := S (nextNode u) |}
       ∧ (length (children (take k (entry :: l))) ≤ 10)%nat
       ∧ ((k < S (length l))%nat →
          (10 < length (children (take (S k) (entry :: l))))%nat).
Proof.
  intros Hu entry. unfold addLogEntry. rewrite Hu. fold entry.
  destruct (evict_spec (length (entry :: l)) (entry :: l))
    as (k & Hk & E & Hc & Hmax); [done|].
  simpl in Hk. exists k. rewrite E. split_and!; try done.
  - destruct k as [|k]; [|lia].
    exfalso. specialize (Hmax ltac:(simpl; lia)).
    subst entry. cbn in Hmax. rewrite take_0 in Hmax. simpl in Hmax. lia.
Qed.

Lemma addLogEntry_present ts old new u :
  is_Some (breakpointLogEl u) →
  is_Some (breakpointLogEl (addLogEntry ts old new u)).
Proof. intros [l Hl]. unfold addLogEntry. by rewrite Hl. Qed.

Lemma addLogEntry_bounded ts old new u :
  is_Some (breakpointLogEl u) →
  (length (children (logNodes (addLogEntry ts old new u))) ≤ 10)%nat.
Proof.
  intros [l Hl].
  destruct (addLogEntry_spec ts old new u l Hl) as (k & _ & -> & Hc & _).
  exact Hc.
Qed.

(** Along any sequence of insertions the bound holds as soon as it held at
    the start or one insertion was made. *)
Lemma addAll_bounded inputs u :
  is_Some (breakpointLogEl u) →
  (length (children (logNodes u)) ≤ 10)%nat ∨ inputs ≠ [] →
  (length (children (logNodes (addAll inputs u))) ≤ 10)%nat.
Proof.
  revert u. induction inputs as [|i inputs IH]; intros u Hu Hstart.
  - by destruct Hstart.
  - unfold addAll. simpl. apply IH.
    + by apply addLogEntry_present.
    + left. by apply addLogEntry_bounded.
Qed.

(** ** The claim about the log *)

(** C9. The change log never holds more than 10 entries.  Each
    [addLogEntry] puts the new entry at the front and removes child nodes
    from the back, as few as bring the number of entries down to 10.
    After 11 insertions into an empty log the entry inserted first is
    gone, the entry inserted last is at the front, and 10 entries are
    left. *)
Theorem addLogEntry_log_bounded (u : UIUpdater) (inputs : list LogInput) :
  is_Some (breakpointLogEl u) →
  (∀ ts old new l,
     breakpointLogEl u = Some l →
     let entry := LiElement (nextNode u) (entryText ts old new) in
     ∃ k, (1 ≤ k)%nat
          ∧ logNodes (addLogEntry ts old new u) = take k (entry :: l)
          ∧ head (logNodes (addLogEntry ts old new u)) = Some entry
          ∧ (length (children (logNodes (addLogEntry ts old new u))) ≤ 10)%nat
          ∧ ((k < S (length l))%nat →
             (10 < length (children (take (S k) (entry :: l))))%nat))
  ∧ (inputs ≠ [] →
     (length (children (logNodes (addAll inputs u))) ≤ 10)%nat)
  ∧ ((length (children (logNodes u)) ≤ 10)%nat →
     (length (children (logNodes (addAll inputs u))) ≤ 10)%nat)
  ∧ (breakpointLogEl u = Some [] → length inputs = 11%nat →
     ∀ first last,
       inputs !! 0%nat = Some first → inputs !! 10%nat = Some last →
       let text i := entryText (timestamp i) (changedFrom i) (changedTo i) in
       (LiElement (nextNode u) (text first) ∉ logNodes (addAll inputs u))
       ∧ head (logNodes (addAll inputs u))
         = Some (LiElement (10 + nextNode u) (text last))
       ∧ length (logNodes (addAll inputs u)) = 10%nat
       ∧ length (children (logNodes (addAll inputs u))) = 10%nat).
Proof.
  intros Hu. split_and!.
  - intros ts old new l Hl entry.
    destruct (addLogEntry_spec ts old new u l Hl) as (k & Hk & -> & Hc & Hmax).
    exists k. unfold logNodes. simpl. split_and!; try done; [lia|].
    destruct k; [lia | done].
  - intros Hin. apply addAll_bounded; auto.
  - intros Hle. apply addAll_bounded; auto.
  - intros Hempty Hlen first last H0 H10 text.
    destruct u as [el n]. simpl in Hempty. subst el.
    do 11 (destruct inputs as [|? inputs]; [done|]).
    destruct inputs; [|done].
    simpl in H0, H10. injection H0 as ->. injection H10 as ->.
    subst text. unfold addAll, logNodes. cbn -[entryText].
    split_and!; try reflexivity.
    rewrite !elem_of_cons, elem_of_nil. intros H.
    repeat destruct H as [H|H]; try done; injection H; intros; lia.
Qed.

(** Eleven changes logged within one second with the same names: the
    texts coincide, the nodes do not. *)
Lemma addLogEntry_log_bounded_witness :
  let u := {| breakpointLogEl := Some []; nextNode := 0 |} in
  let i := {| timestamp := "10:15:00"; changedFrom := "sm";
              changedTo := "md" |} in
  let text := "10:15:00 - Changed from SM to MD" in
  (LiElement 0 text ∉ logNodes (addAll (replicate 11 i) u))
  ∧ head (logNodes (addAll (replicate 11 i) u)) = Some (LiElement 10 text)
  ∧ length (logNodes (addAll (replicate 11 i) u)) = 10%nat
  ∧ length (children (logNodes (addAll (replicate 11 i) u))) = 10%nat.
Proof.
  intros u i text.
  assert (is_Some (breakpointLogEl u)) as Hu by (by eexists).
  destruct (addLogEntry_log_bounded u (replicate 11 i) Hu)
    as (_ & _ & _ & Heleven).
  apply (Heleven eq_refl eq_refl i i eq_refl eq_refl).
Defined.

End LogFacts.
(* ================================================================== *)
(** * Properties of the debounce utility *)
(* ================================================================== *)

Module DebounceFacts.
Import Debounce.

Section WithArguments.

Context {A : Type}.
Implicit Types (st : Debounced * Timers A) (T : Timers A) (d : Debounced).

(** ** Sanity check on concrete inputs *)

(** Three calls 40 ms apart with a wait of 100 ms: the timers of the
    first two are cleared, the third runs at 180 ms at the earliest. *)
Example burst_sample :
  let st0 := (debounce 7 100, {| pending := ∅; nextHandle := 1 |}) in
  let run := ticks [Call "a" 0; Call "b" 40; Call "c" 80;
                    Expire 1 150; Expire 3 150; Expire 3 180;
                    Expire 3 400] st0 in
  snd run = [{| firedCallee := 7%nat; firedArgs := "c"; firedAt := 180 |}]
  ∧ pending (snd (fst run)) = ∅.
Proof. split; reflexivity. Qed.

(** ** One call *)

(** After a call the only pending timer for [func] is the new one. *)
Lemma call_spec a now st :
  ownsItsTimer st →
  let st' := call a now st in
  func (fst st') = func (fst st)
  ∧ wait (fst st') = wait (fst st)
  ∧ ownsItsTimer st'
  ∧ ∃ handle,
      timeout (fst st') = Some handle
      ∧ pendingFor (func (fst st)) (snd st')
        = {[ handle := {| due := now + wait (fst st);
                          callee := func (fst st); args := a |} ]}.
Proof.
  destruct st as [d T]. intros [[Hpos Hrange] Hown]. simpl in *.
  set (T1 := match timeout d with
             | Some handle =>
                 if (handle =? 0)%nat then T else clearTimeout handle T
             | None => T
             end).
  assert (nextHandle T1 = nextHandle T) as Hnext.
  { unfold T1. destruct (timeout d) as [h|]; [|done].
    by destruct (h =? 0)%nat. }
  assert (∀ h t, pending T1 !! h = Some t →
                 pending T !! h = Some t ∧ callee t ≠ func d) as Hclean.
  { intros h t Ht. unfold T1 in Ht.
    destruct (timeout d) as [h0|] eqn:E.
    - destruct (Nat.eqb_spec h0 0) as [->|Hne].
      + split; [done|]. intros Hc.
        specialize (Hown h t Ht Hc). injection Hown as <-.
        specialize (Hrange 0%nat t Ht). lia.
      + simpl in Ht. apply lookup_delete_Some in Ht as [Hh Ht].
        split; [done|]. intros Hc.
        specialize (Hown h t Ht Hc). congruence.
    - split; [done|]. intros Hc. specialize (Hown h t Ht Hc). done. }
  unfold call. fold T1. simpl. rewrite Hnext.
  split_and!; try done.
  - split; [split|]; simpl.
    + lia.
    + intros h t. rewrite lookup_insert. case_decide as Hh.
      * intros _. lia.
      * intros [Ht _]%Hclean. specialize (Hrange h t Ht). lia.
    + intros h t. rewrite lookup_insert. case_decide as Hh.
      * intros _ _. by subst.
      * intros [_ Ht]%Hclean ?. done.
  - eexists. split; [done|]. unfold pendingFor. simpl.
    apply map_eq. intros h.
    destruct (decide (h = nextHandle T)) as [->|Hne].
    + rewrite lookup_singleton_eq.
      apply map_lookup_filter_Some. by rewrite lookup_insert_eq.
    + rewrite lookup_singleton_ne by done.
      apply map_lookup_filter_None. right. intros t.
      rewrite lookup_insert_ne by done.
      intros [_ Ht]%Hclean. done.
Qed.

(** ** Any tick *)

Lemma tick_spec t st :
  ownsItsTimer st → foreign (func (fst st)) t →
  let st' := fst (tick t st) in
  func (fst st') = func (fst st)
  ∧ wait (fst st') = wait (fst st)
  ∧ ownsItsTimer st'.
Proof.
  intros Hst Hforeign. destruct t as [a now|h now|g a now delay].
  - destruct (call_spec a now st Hst) as (? & ? & ? & _). by simpl.
  - simpl. unfold expire.
    destruct (pending st.2 !! h) as [t|] eqn:Et; [|done].
    destruct (due t <=? now); [|done].
    destruct st as [d T]. destruct Hst as [[Hpos Hrange] Hown]. simpl in *.
    split_and!; try done. split; [split|]; simpl; [done| |].
    + intros h' t' [_ Ht']%lookup_delete_Some. eauto.
    + intros h' t' [_ Ht']%lookup_delete_Some. eauto.
  - destruct st as [d T]. destruct Hst as [[Hpos Hrange] Hown]. simpl in *.
    split_and!; try done. split; [split|]; simpl.
    + lia.
    + intros h t. rewrite lookup_insert. case_decide.
      * intros _. lia.
      * intros Ht. specialize (Hrange h t Ht). lia.
    + intros h t. rewrite lookup_insert. case_decide.
      * intros [= <-]. simpl. done.
      * eauto.
Qed.

Lemma ticks_spec ts st :
  ownsItsTimer st → Forall (foreign (func (fst st))) ts →
  let st' := fst (ticks ts st) in
  func (fst st') = func (fst st)
  ∧ wait (fst st') = wait (fst st)
  ∧ ownsItsTimer st'.
Proof.
  revert st. induction ts as [|t ts IH]; intros st Hst Hts; [done|].
  apply Forall_cons in Hts as [Ht Hts]. simpl.
  destruct (tick_spec t st Hst Ht) as (Hf & Hw & Hst1).
  destruct (tick t st) as [st1 fired1]. simpl in *.
  rewrite <- Hf in Hts. destruct (IH st1 Hst1 Hts) as (Hf2 & Hw2 & Hst2).
  destruct (ticks ts st1) as [st2 fired2]. simpl in *.
  split_and!; [congruence | congruence | done].
Qed.

Lemma ticks_app ts1 ts2 st :
  ticks (ts1 ++ ts2) st
  = let '(st1, fired1) := ticks ts1 st in
    let '(st2, fired2) := ticks ts2 st1 in
    (st2, fired1 ++ fired2).
Proof.
  revert st. induction ts1 as [|t ts1 IH]; intros st; simpl.
  - by destruct (ticks ts2 st).
  - destruct (tick t st) as [st1 fired1]. rewrite IH.
    destruct (ticks ts1 st1) as [st2 fired2].
    destruct (ticks ts2 st2) as [st3 fired3]. by rewrite app_assoc.
Qed.

Lemma callsOf_app f (l1 l2 : list (Fired A)) :
  callsOf f (l1 ++ l2) = callsOf f l1 ++ callsOf f l2.
Proof. apply List.filter_app. Qed.

(** ** At most one pending invocation *)

(** However the wrapper is called and whatever timers run or are set by
    other code, at no moment are two timers pending for the debounced
    function. *)
Theorem at_most_one_pending (ts : list (Tick A)) st :
  ownsItsTimer st → Forall (foreign (func (fst st))) ts →
  let T := snd (fst (ticks ts st)) in
  ∀ h1 h2 t1 t2,
    pending T !! h1 = Some t1 → pending T !! h2 = Some t2 →
    callee t1 = func (fst st) → callee t2 = func (fst st) → h1 = h2.
Proof.
  intros Hst Hts T h1 h2 t1 t2 H1 H2 C1 C2.
  destruct (ticks_spec ts st Hst Hts) as (Hf & _ & _ & Hown).
  rewrite <- Hf in C1, C2.
  pose proof (Hown h1 t1 H1 C1) as E1.
  pose proof (Hown h2 t2 H2 C2) as E2. congruence.
Qed.

(** ** A burst of calls *)

(** After any history that ends with a call at time [now] with arguments
    [a], exactly one timer is pending for the debounced function: it is
    due [wait] after that last call and carries its arguments. *)
Theorem burst_leaves_last_call (ts : list (Tick A)) (a : A) (now : Z) st :
  ownsItsTimer st → Forall (foreign (func (fst st))) ts →
  let st' := fst (ticks (ts ++ [Call a now]) st) in
  ∃ handle,
    timeout (fst st') = Some handle
    ∧ pendingFor (func (fst st)) (snd st')
      = {[ handle := {| due := now + wait (fst st);
                        callee := func (fst st); args := a |} ]}.
Proof.
  intros Hst Hts. rewrite ticks_app.
  destruct (ticks_spec ts st Hst Hts) as (Hf & Hw & Hst1).
  destruct (ticks ts st) as [st1 fired1]. simpl in *.
  destruct (call_spec a now st1 Hst1) as (_ & _ & _ & h & Hh & Hp).
  exists h. rewrite <- Hf, <- Hw. done.
Qed.

(** ** Timers that run or are set, seen from one function *)

Lemma expire_own handle now fired d T T' :
  ownsItsTimer (d, T) →
  expire handle now T = Some (fired, T') →
  firedCallee fired = func d →
  pendingFor (func d) T' = ∅.
Proof.
  intros [_ Hown] Hex Hc. unfold expire in Hex. simpl in Hown.
  destruct (pending T !! handle) as [t|] eqn:Et; [|done].
  destruct (due t <=? now); [|done]. injection Hex as <- <-.
  simpl in Hc. apply map_eq. intros i. rewrite lookup_empty.
  apply map_lookup_filter_None. right. intros x. simpl.
  intros [Hi Hx]%lookup_delete_Some Hcx.
  pose proof (Hown i x Hx Hcx). pose proof (Hown handle t Et Hc). congruence.
Qed.

Lemma expire_other f handle now fired T T' :
  expire handle now T = Some (fired, T') →
  firedCallee fired ≠ f →
  pendingFor f T' = pendingFor f T.
Proof.
  intros Hex Hc. unfold expire in Hex.
  destruct (pending T !! handle) as [t|] eqn:Et; [|done].
  destruct (due t <=? now); [|done]. injection Hex as <- <-.
  simpl in Hc. apply map_eq. intros i. unfold pendingFor. simpl.
  destruct (decide (i = handle)) as [->|Hi].
  - transitivity (@None (Timer A)).
    + apply map_lookup_filter_None. left. apply lookup_delete_eq.
    + symmetry. apply map_lookup_filter_None. right.
      intros x Hx. simpl. congruence.
  - rewrite !map_lookup_filter. by rewrite lookup_delete_ne.
Qed.

Lemma expire_pending f handle now fired T T' :
  expire handle now T = Some (fired, T') →
  firedCallee fired = f →
  ∃ t, pendingFor f T !! handle = Some t
       ∧ due t ≤ now ∧ args t = firedArgs fired ∧ firedAt fired = now.
Proof.
  intros Hex Hc. unfold expire in Hex.
  destruct (pending T !! handle) as [t|] eqn:Et; [|done].
  destruct (Z.leb_spec (due t) now); [|done]. injection Hex as <- <-.
  simpl in Hc. exists t. split_and!; try done.
  by apply map_lookup_filter_Some.
Qed.

Lemma setTimeout_other f g a now delay T :
  browserTimers T → g ≠ f →
  pendingFor f (snd (setTimeout g a now delay T)) = pendingFor f T.
Proof.
  intros [_ Hrange] Hg. apply map_eq. intros i. unfold pendingFor. simpl.
  destruct (decide (i = nextHandle T)) as [->|Hi].
  - transitivity (@None (Timer A)).
    + apply map_lookup_filter_None. right. intros x.
      rewrite lookup_insert_eq. intros [= <-]. simpl. congruence.
    + symmetry. apply map_lookup_filter_None. left.
      destruct (pending T !! nextHandle T) as [x|] eqn:Ex; [|done].
      specialize (Hrange _ _ Ex). lia.
  - rewrite !map_lookup_filter. by rewrite lookup_insert_ne.
Qed.

(** ** What runs after the last call *)

(** While no further call is made, the debounced function runs at most
    once: with the arguments of the last call and not before [wait] has
    passed since it. *)
Theorem last_call_runs_once (rest : list (Tick A)) (a : A) (now : Z) st :
  ownsItsTimer st →
  Forall (foreign (func (fst st))) rest →
  Forall (λ t, isCall t = false) rest →
  let fired := snd (ticks rest (call a now st)) in
  callsOf (func (fst st)) fired = []
  ∨ ∃ at_, now + wait (fst st) ≤ at_
           ∧ callsOf (func (fst st)) fired
             = [{| firedCallee := func (fst st); firedArgs := a;
                   firedAt := at_ |}].
Proof.
  intros Hst Hforeign Hnocall.
  destruct (call_spec a now st Hst) as (Hf & Hw & Hst1 & h & Hh & Hp).
  set (f := func (fst st)) in *. set (w := wait (fst st)) in *.
  set (tm := {| due := now + w; callee := f; args := a |}) in *.
  (* while the timer is pending nothing of [f] has run; once it has run
     nothing of [f] is pending *)
  assert (∀ st1,
            ownsItsTimer st1 → func (fst st1) = f →
            (pendingFor f (snd st1) = {[ h := tm ]}
             → callsOf f (snd (ticks rest st1)) = []
               ∨ ∃ at_, now + w ≤ at_
                        ∧ callsOf f (snd (ticks rest st1))
                          = [{| firedCallee := f; firedArgs := a;
                                firedAt := at_ |}])
            ∧ (pendingFor f (snd st1) = ∅
               → callsOf f (snd (ticks rest st1)) = [])) as Hgen.
  { clear Hst Hst1 Hf Hw Hh Hp.
    induction rest as [|t rest IH]; intros st1 Hst1 Hf1.
    { split; intros _; [by left | done]. }
    apply Forall_cons in Hforeign as [Hft Hforeign].
    apply Forall_cons in Hnocall as [Hnt Hnocall].
    specialize (IH Hforeign Hnocall).
    rewrite <- Hf1 in Hft.
    destruct (tick_spec t st1 Hst1 Hft) as (Hf2 & _ & Hst2).
    rewrite Hf1 in Hf2.
    specialize (IH (fst (tick t st1)) Hst2 Hf2) as [IH1 IH0].
    destruct st1 as [d1 T1]. cbn [fst snd] in *.
    destruct t as [a' now'|h' now'|g a' now' delay]; [done| |].
    - (* a timer runs *)
      cbn [ticks tick fst snd] in *.
      destruct (expire h' now' T1) as [[fired T']|] eqn:Ex;
        cbn [fst snd] in *.
      2: { destruct (ticks rest (d1, T1)) as [st2 fired2].
           split; [apply IH1 | apply IH0]. }
      destruct (ticks rest (d1, T')) as [st2 fired2] eqn:Erest.
      cbn [snd] in *. rewrite callsOf_app. unfold callsOf at 1 3 5.
      cbn [List.filter].
      destruct (Nat.eqb_spec (firedCallee fired) f) as [Hc|Hc].
      + (* it is the timer of [f] *)
        pose proof (expire_pending f _ _ _ _ _ Ex Hc)
          as (t' & Hin & Hdue & Hargs & Hat).
        rewrite <- Hf1 in Hc.
        pose proof (expire_own _ _ _ _ _ _ Hst1 Ex Hc) as Hgone.
        rewrite Hf1 in Hgone, Hc. rewrite (IH0 Hgone). split.
        * intros Hp. rewrite Hp in Hin.
          apply lookup_singleton_Some in Hin as [<- <-].
          right. exists now'. subst tm. cbn [due args] in Hargs, Hdue.
          split; [lia|]. destruct fired. cbn in *. by subst.
        * intros Hp. rewrite Hp in Hin. by rewrite lookup_empty in Hin.
      + rewrite (expire_other f _ _ _ _ _ Ex Hc) in *.
        split; [apply IH1 | apply IH0].
    - (* other code sets a timer *)
      cbn [ticks tick fst snd foreign] in *.
      destruct Hst1 as [Hbrowser _]. cbn [snd] in Hbrowser.
      rewrite Hf1 in Hft.
      rewrite (setTimeout_other f g a' now' delay T1 Hbrowser Hft) in *.
      destruct (ticks rest _) as [st2 fired2]. cbn [snd app] in *.
      split; [apply IH1 | apply IH0]. }
  destruct (Hgen (call a now st) Hst1 Hf) as [H1 _].
  apply H1. exact Hp.
Qed.

End WithArguments.

(** The hypotheses hold at the start of a page, and the conclusions are
    about real timers. *)
Lemma at_most_one_pending_witness :
  let st0 := (debounce 7 100, {| pending := (∅ : gmap nat (Timer string));
                                 nextHandle := 1 |}) in
  let T := snd (fst (ticks [Call "a" 0; OtherTimeout 9 "x" 10 500;
                            Call "b" 40] st0)) in
  pending T !! 3%nat = Some {| due := 140; callee := 7; args := "b" |}
  ∧ 3%nat = 3%nat.
Proof.
  intros st0 T. split; [reflexivity|].
  apply (at_most_one_pending
           [Call "a" 0; OtherTimeout 9 "x" 10 500; Call "b" 40] st0)
    with (t1 := {| due := 140; callee := 7; args := "b" |})
         (t2 := {| due := 140; callee := 7; args := "b" |});
    try reflexivity.
  - split; [split|]; simpl; [lia | |]; intros h t; by rewrite lookup_empty.
  - repeat constructor. simpl. lia.
Defined.

Lemma burst_leaves_last_call_witness :
  let st0 := (debounce 7 100, {| pending := (∅ : gmap nat (Timer string));
                                 nextHandle := 1 |}) in
  let st' := fst (ticks ([Call "a" 0; Call "b" 40] ++ [Call "c" 80]) st0) in
  ∃ handle,
    timeout (fst st') = Some handle
    ∧ pendingFor 7 (snd st')
      = {[ handle := {| due := 80 + 100; callee := 7%nat; args := "c" |} ]}.
Proof.
  intros st0.
  apply (burst_leaves_last_call [Call "a" 0; Call "b" 40] "c" 80 st0).
  - split; [split|]; simpl; [lia | |]; intros h t; by rewrite lookup_empty.
  - repeat constructor.
Defined.

Lemma last_call_runs_once_witness :
  let st0 := (debounce 7 100, {| pending := (∅ : gmap nat (Timer string));
                                 nextHandle := 1 |}) in
  let fired := snd (ticks [Expire 1 50; OtherTimeout 9 "x" 60 10;
                           Expire 1 120] (call "a" 0 st0)) in
  callsOf 7 fired = []
  ∨ ∃ at_, 0 + 100 ≤ at_
           ∧ callsOf 7 fired
             = [{| firedCallee := 7%nat; firedArgs := "a"; firedAt := at_ |}].
Proof.
  intros st0.
  apply (last_call_runs_once
           [Expire 1 50; OtherTimeout 9 "x" 60 10; Expire 1 120] "a" 0 st0).
  - split; [split|]; simpl; [lia | |]; intros h t; by rewrite lookup_empty.
  - repeat constructor. simpl. lia.
  - repeat constructor.
Defined.

End DebounceFacts.
(* ================================================================== *)
(** * Properties of the manager behind its observer *)
(* ================================================================== *)

Module ObserverFacts.
Import Breakpoints Manager Debounce Observer.

(** ** Sanity check on concrete inputs *)

(** A size change observed just before [destroy()]: the timer it set is
    not cleared, and when it runs the change event is still
    dispatched, to no listener. *)
Example pending_check_survives_destroy :
  let s0 := construct {| innerWidth := 600; innerHeight := 800 |}
                      {| pending := ∅; nextHandle := 1 |} in
  let run := happenAll [MethodCalled (CallOnChange (Callback 1 []));
                        SizeObserved 0;
                        MethodCalled CallDestroy;
                        SizeObserved 20;
                        TimerRuns 1 100
                          {| innerWidth := 800; innerHeight := 600 |}]
                       s0 in
  snd run
  = [Dispatched {| oldBreakpoint := "sm"; newBreakpoint := "md";
                   width := 800; height := 600 |};
     Logged (Some "sm") "md"]
  ∧ pending (timers (fst run)) = ∅.
Proof. split; reflexivity. Qed.

(** ** A disconnected observer stays disconnected *)

Lemma perform_observing m a :
  isObserving m = false → isObserving (perform m a) = false.
Proof.
  unfold isObserving. destruct a; simpl; try done.
  by destruct (resizeObserver m).
Qed.

Lemma runBody_observing body m :
  isObserving m = false → isObserving (runBody body m) = false.
Proof.
  unfold runBody. revert m.
  induction body as [|a body IH]; intros m Hm; simpl; [done|].
  apply IH. by apply perform_observing.
Qed.

Lemma runAll_observing arr m :
  isObserving m = false → isObserving (runAll arr m) = false.
Proof.
  unfold runAll. revert m.
  induction arr as [|cb arr IH]; intros m Hm; simpl; [done|].
  apply IH. by apply runBody_observing.
Qed.

Lemma checkBreakpointChange_observing win m :
  isObserving m = false →
  isObserving (fst (checkBreakpointChange win m)) = false.
Proof.
  intros Hm.
  destruct (decide (getCurrentBreakpoint (innerWidth win)
                    = currentBreakpoint m)) as [E|Hne].
  - by rewrite ManagerFacts.checkBreakpointChange_same.
  - rewrite ManagerFacts.checkBreakpointChange_changed by done. cbn [fst].
    by do 3 apply runAll_observing.
Qed.

Lemma dispatches_once win m :
  (length (dispatches (snd (checkBreakpointChange win m))) ≤ 1)%nat.
Proof.
  destruct (decide (getCurrentBreakpoint (innerWidth win)
                    = currentBreakpoint m)) as [E|Hne].
  - rewrite ManagerFacts.checkBreakpointChange_same by done. simpl. lia.
  - destruct (ManagerFacts.checkBreakpointChange_turn win m Hne)
      as (d & _ & -> & _). simpl. lia.
Qed.

(** ** After [destroy()] *)

Lemma happen_wellTimed h s :
  wellTimed s → foreignTimer h → wellTimed (fst (happen h s)).
Proof.
  intros [Hown Hf] Hh. destruct s as [m d T]. cbn [debounced timers] in *.
  destruct h as [now|handle now win|a|f now delay]; cbn [happen manager
    debounced timers].
  - destruct (isObserving m); [|by split].
    destruct (DebounceFacts.call_spec tt now (d, T) Hown) as (F & _ & O & _).
    destruct (call tt now (d, T)) as [d' T']. split; [done|].
    cbn [fst debounced] in *. congruence.
  - pose proof (DebounceFacts.tick_spec (Expire handle now) (d, T) Hown I)
      as (_ & _ & O).
    cbn [tick fst snd] in O.
    destruct (expire handle now T) as [[fired T']|]; [|by split].
    cbn [fst] in O.
    destruct (firedCallee fired =? checkLabel)%nat; [|by split].
    destruct (checkBreakpointChange win m). by split.
  - by split.
  - assert (foreign (func (d, T).1) (OtherTimeout f tt now delay)) as Hfo.
    { cbn. by rewrite Hf. }
    pose proof (DebounceFacts.tick_spec (OtherTimeout f tt now delay)
                  (d, T) Hown Hfo) as (_ & _ & O).
    by split.
Qed.

(** Once [destroy()] has disconnected the observer, the manager checks
    the breakpoint at most once more: when a timer set before is still
    pending and runs.  So at most one more change event is dispatched,
    and when no timer of the check is pending nothing happens at all any
    more, whatever is observed, registered or timed. *)
Theorem destroyed_checks_at_most_once (hs : list Happening) (s : Observed) :
  wellTimed s → isObserving (manager s) = false →
  Forall foreignTimer hs →
  let trace := snd (happenAll hs s) in
  (length (dispatches trace) ≤ 1)%nat
  ∧ (pendingFor checkLabel (timers s) = ∅ → trace = []).
Proof.
  intros Hs Hoff Hhs. revert s Hs Hoff.
  induction Hhs as [|h hs Hh _ IH]; intros s Hs Hoff.
  { cbn. split; [lia | done]. }
  cbn [happenAll].
  pose proof (happen_wellTimed h s Hs Hh) as Hs1.
  destruct Hs as [Hown Hf].
  destruct s as [m d T]. cbn [manager debounced timers] in *.
  destruct h as [now|handle now win|a|f now delay]; cbn [happen manager
    debounced timers] in *.
  - (* nothing is observed any more *)
    rewrite Hoff in *. specialize (IH _ Hs1 Hoff).
    destruct (happenAll hs _) as [s2 t2]. exact IH.
  - destruct (expire handle now T) as [[fired T']|] eqn:Ex.
    2: { specialize (IH _ Hs1 Hoff).
         destruct (happenAll hs _) as [s2 t2]. exact IH. }
    destruct (Nat.eqb_spec (firedCallee fired) checkLabel) as [Hc|Hc].
    + (* the pending check runs *)
      pose proof (checkBreakpointChange_observing win m Hoff) as Hoff1.
      pose proof (dispatches_once win m) as Honce.
      destruct (checkBreakpointChange win m) as [m1 t1].
      cbn [fst snd] in *.
      specialize (IH _ Hs1 Hoff1). cbn [timers] in IH.
      rewrite <- Hf in Hc.
      pose proof (DebounceFacts.expire_own _ _ _ _ _ _ Hown Ex Hc) as Hgone.
      rewrite Hf in Hgone, Hc.
      destruct (happenAll hs _) as [s2 t2]. cbn [snd] in *.
      destruct IH as [_ IH0]. rewrite (IH0 Hgone), app_nil_r.
      split; [done|]. intros Hnone.
      destruct (DebounceFacts.expire_pending checkLabel _ _ _ _ _ Ex Hc)
        as (t & Hin & _).
      rewrite Hnone in Hin. by rewrite lookup_empty in Hin.
    + (* a timer of other code runs *)
      cbn [fst] in Hs1.
      specialize (IH _ Hs1 Hoff). cbn [timers] in IH.
      rewrite (DebounceFacts.expire_other checkLabel _ _ _ _ _ Ex Hc) in IH.
      destruct (happenAll hs _) as [s2 t2]. exact IH.
  - specialize (IH _ Hs1 (perform_observing m a Hoff)).
    destruct (happenAll hs _) as [s2 t2]. exact IH.
  - cbn [fst] in Hs1.
    specialize (IH _ Hs1 Hoff). cbn [timers foreignTimer] in *.
    destruct Hown as [Hbrowser _]. cbn [snd] in Hbrowser.
    rewrite (DebounceFacts.setTimeout_other checkLabel f tt now delay T
               Hbrowser Hh) in IH.
    destruct (happenAll hs _) as [s2 t2]. exact IH.
Qed.

Lemma destroyed_checks_at_most_once_witness :
  let s0 := construct {| innerWidth := 600; innerHeight := 800 |}
                      {| pending := ∅; nextHandle := 1 |} in
  let s := fst (happenAll [MethodCalled CallDestroy] s0) in
  snd (happenAll [SizeObserved 20; MethodCalled (CallOnChange (Callback 1 []));
                  TimerRuns 1 200 {| innerWidth := 800; innerHeight := 600 |}]
                 s) = [].
Proof.
  intros s0 s.
  apply (destroyed_checks_at_most_once
           [SizeObserved 20; MethodCalled (CallOnChange (Callback 1 []));
            TimerRuns 1 200 {| innerWidth := 800; innerHeight := 600 |}] s).
  - split; [|reflexivity]. split; [split|]; cbn; [lia | |];
      intros h t; by rewrite lookup_empty.
  - reflexivity.
  - repeat constructor.
  - reflexivity.
Defined.

End ObserverFacts.
(* ================================================================== *)
(** * Further properties of the breakpoint queries and the manager *)
(* ================================================================== *)

Module ManagerSessionFacts.
Import Breakpoints Manager Sessions.

(** ** [isUp] and [isDown] against the thresholds *)

Lemma breakpoints_cases name t :
  (name, t) ∈ breakpoints →
  (name, t) = ("xs", 0) ∨ (name, t) = ("sm", 576) ∨ (name, t) = ("md", 768)
  ∨ (name, t) = ("lg", 1024) ∨ (name, t) = ("xl", 1280)
  ∨ (name, t) = ("xxl", 1536).
Proof.
  unfold breakpoints. rewrite !elem_of_cons, elem_of_nil. tauto.
Qed.

(** [isUp] is the min-width media query: once the breakpoint has been
    computed from a width [w >= 0], [isUp(name)] tells whether [w] has
    reached the threshold of [name]. *)
Theorem isUp_threshold (w : Z) (name : BreakpointName) (t : Z) :
  0 ≤ w → (name, t) ∈ breakpoints →
  (isUp (getCurrentBreakpoint w) name = true ↔ t ≤ w).
Proof.
  intros Hw Hin. rewrite BreakpointFacts.getCurrentBreakpoint_bands.
  apply breakpoints_cases in Hin.
  repeat destruct Hin as [Hin|Hin]; injection Hin as -> ->;
    repeat match goal with
           | |- context [?a <? ?b] => destruct (Z.ltb_spec a b)
           end;
    (split; [intros Hq; vm_compute in Hq; first [discriminate | lia]
            | intros Hq; first [reflexivity | lia]]).
Qed.

Lemma isUp_threshold_witness :
  isUp (getCurrentBreakpoint 800) "md" = true ↔ 768 ≤ 800.
Proof.
  apply (isUp_threshold 800 "md" 768); [lia|].
  do 2 apply list_elem_of_further. apply list_elem_of_here.
Defined.

(** [isDown(name)] tells whether the width has stayed below every
    threshold larger than that of [name]. *)
Theorem isDown_threshold (w : Z) (name : BreakpointName) (t : Z) :
  (name, t) ∈ breakpoints →
  (isDown (getCurrentBreakpoint w) name = true
   ↔ ∀ name' t', (name', t') ∈ breakpoints → t < t' → w < t').
Proof.
  intros Hin. rewrite BreakpointFacts.getCurrentBreakpoint_bands.
  apply breakpoints_cases in Hin.
  assert (∀ P : BreakpointName → Z → Prop,
            (∀ name' t', (name', t') ∈ breakpoints → P name' t')
            ↔ P "xs" 0 ∧ P "sm" 576 ∧ P "md" 768 ∧ P "lg" 1024
              ∧ P "xl" 1280 ∧ P "xxl" 1536) as Hall.
  { intros P. split.
    - intros H. unfold breakpoints in H.
      split_and!; apply H;
        repeat first [apply list_elem_of_here | apply list_elem_of_further].
    - intros (? & ? & ? & ? & ? & ?) name' t' Hin'.
      apply breakpoints_cases in Hin'.
      repeat destruct Hin' as [Hin'|Hin']; by injection Hin' as -> ->. }
  rewrite (Hall (λ name' t', t < t' → w < t')).
  repeat destruct Hin as [Hin|Hin]; injection Hin as -> ->;
    repeat match goal with
           | |- context [?a <? ?b] => destruct (Z.ltb_spec a b)
           end;
    (split; [intros Hq; vm_compute in Hq; first [discriminate | lia]
            | intros Hq; first [reflexivity | lia]]).
Qed.

Lemma isDown_threshold_witness :
  isDown (getCurrentBreakpoint 800) "md" = true
  ↔ ∀ name' t', (name', t') ∈ breakpoints → 768 < t' → 800 < t'.
Proof.
  apply (isDown_threshold 800 "md" 768).
  do 2 apply list_elem_of_further. apply list_elem_of_here.
Defined.

(** ** The stored breakpoint along a run *)

Lemma checkBreakpointChange_tracks win m :
  currentBreakpoint (fst (checkBreakpointChange win m))
  = getCurrentBreakpoint (innerWidth win).
Proof.
  destruct (decide (getCurrentBreakpoint (innerWidth win)
                    = currentBreakpoint m)) as [E|Hne].
  - by rewrite ManagerFacts.checkBreakpointChange_same.
  - rewrite ManagerFacts.checkBreakpointChange_changed by done. cbn [fst].
    repeat match goal with
           | |- context [runAll ?a ?x] =>
               destruct (ManagerFacts.runAll_fields a x) as [-> _]
           end.
    reflexivity.
Qed.

(** After any run, [get()] returns the breakpoint of the width of the
    last notification, whatever the callbacks did; without a notification
    it still returns what it returned at the start. *)
Theorem get_tracks_last_notification (steps : list Step)
    (m : BreakpointManager) :
  get (fst (run steps m))
  = match lastNotified steps with
    | Some win => getCurrentBreakpoint (innerWidth win)
    | None => get m
    end.
Proof.
  unfold get. revert m.
  induction steps as [|[win|a] steps IH]; intros m; simpl; [done| |].
  - pose proof (checkBreakpointChange_tracks win m) as Hcur.
    destruct (checkBreakpointChange win m) as [m1 t1]. simpl in Hcur.
    specialize (IH m1). destruct (run steps m1) as [m2 t2]. simpl in *.
    rewrite IH. by destruct (lastNotified steps).
  - rewrite IH. destruct (lastNotified steps); [done|].
    apply ManagerFacts.perform_current.
Qed.

Lemma dispatches_turn win m :
  getCurrentBreakpoint (innerWidth win) ≠ currentBreakpoint m →
  dispatches (snd (checkBreakpointChange win m)) ≠ [].
Proof.
  intros Hne.
  destruct (ManagerFacts.checkBreakpointChange_turn win m Hne)
    as (d & _ & -> & _). done.
Qed.

Lemma checkBreakpointChange_previous win m :
  getCurrentBreakpoint (innerWidth win) ≠ currentBreakpoint m →
  previousBreakpoint (fst (checkBreakpointChange win m))
  = Some (currentBreakpoint m).
Proof.
  intros Hne.
  rewrite ManagerFacts.checkBreakpointChange_changed by done. cbn [fst].
  repeat match goal with
         | |- context [runAll ?a ?x] =>
             destruct (ManagerFacts.runAll_fields a x) as [_ ->]
         end.
  reflexivity.
Qed.

(** From construction on, the previous breakpoint is null exactly as
    long as no change was dispatched, and it never equals the current
    breakpoint. *)
Theorem previous_differs_from_current (win0 : Window) (steps : list Step) :
  let m := fst (run steps (construct win0)) in
  let trace := snd (run steps (construct win0)) in
  previousBreakpoint m ≠ Some (currentBreakpoint m)
  ∧ (previousBreakpoint m = None ↔ dispatches trace = []).
Proof.
  assert (∀ m0,
            previousBreakpoint m0 ≠ Some (currentBreakpoint m0) →
            let m := fst (run steps m0) in
            let trace := snd (run steps m0) in
            previousBreakpoint m ≠ Some (currentBreakpoint m)
            ∧ (dispatches trace = [] →
               previousBreakpoint m = previousBreakpoint m0)
            ∧ (dispatches trace ≠ [] → previousBreakpoint m ≠ None))
    as Hgen.
  { induction steps as [|[win|a] steps IH]; intros m0 H0; simpl.
    - done.
    - destruct (decide (getCurrentBreakpoint (innerWidth win)
                        = currentBreakpoint m0)) as [E|Hne].
      + rewrite ManagerFacts.checkBreakpointChange_same by done.
        specialize (IH m0 H0). destruct (run steps m0) as [m2 t2].
        simpl in *. done.
      + pose proof (checkBreakpointChange_tracks win m0) as Hc.
        pose proof (checkBreakpointChange_previous win m0 Hne) as Hp.
        pose proof (dispatches_turn win m0 Hne) as Hd.
        destruct (checkBreakpointChange win m0) as [m1 t1]. simpl in *.
        assert (previousBreakpoint m1 ≠ Some (currentBreakpoint m1)) as H1.
        { rewrite Hp, Hc. congruence. }
        specialize (IH m1 H1). destruct (run steps m1) as [m2 t2].
        simpl in *. destruct IH as (IHa & IHb & IHc).
        rewrite ManagerFacts.dispatches_app.
        split_and!; [done | |].
        * intros [? ?]%app_eq_nil. done.
        * intros _. destruct (dispatches t2) eqn:E2.
          -- rewrite IHb by done. by rewrite Hp.
          -- by apply IHc.
    - specialize (IH (perform m0 a)).
      rewrite ManagerFacts.perform_current, ManagerFacts.perform_previous
        in IH.
      by apply IH. }
  intros m trace. destruct (Hgen (construct win0)) as (Ha & Hb & Hc); [done|].
  fold m trace in Ha, Hb, Hc. split; [done|]. split.
  - intros Hnone. destruct (dispatches trace) eqn:E; [done|].
    exfalso. by apply Hc.
  - intros Hd. by rewrite (Hb Hd).
Qed.

(** ** Callbacks that do not call back *)

Lemma runAll_passive arr m : passiveList arr → runAll arr m = m.
Proof.
  unfold runAll. intros H. induction H as [|cb arr Hcb _ IH]; simpl; [done|].
  by rewrite Hcb.
Qed.

(** ** Which listeners a notification invokes *)

(** A notification invokes an exit listener exactly when the breakpoint
    changes, the listener is in the exit registry under the breakpoint
    being left, as the registry stands once the change listeners have
    run; and an enter listener exactly when the breakpoint changes and
    the listener is in the enter registry under the breakpoint being
    entered, as the registry stands once the exit listeners have run.
    Listeners registered under any other name are not invoked.  When no
    listener calls back into the manager these are the registries the
    manager held before the notification. *)
Theorem listeners_match_transition (win : Window) (m : BreakpointManager) :
  currentBreakpoint m ∈ breakpointNames →
  let old := currentBreakpoint m in
  let new := getCurrentBreakpoint (innerWidth win) in
  let m2 := runAll (change (callbacks m)) (recordTransition new m) in
  let m3 := runAll (registered (exit (callbacks m2)) old) m2 in
  let trace := snd (checkBreakpointChange win m) in
  (∀ name id arg current previous,
     Invoked (OnExit name) id arg current previous ∈ trace
     ↔ new ≠ old ∧ name = old ∧ arg = None
       ∧ current = new ∧ previous = Some old
       ∧ ∃ cb, cb ∈ registered (exit (callbacks m2)) old ∧ cb_id cb = id)
  ∧ (∀ name id arg current previous,
       Invoked (OnEnter name) id arg current previous ∈ trace
       ↔ new ≠ old ∧ name = new ∧ arg = None
         ∧ current = new ∧ previous = Some old
         ∧ ∃ cb, cb ∈ registered (enter (callbacks m3)) new ∧ cb_id cb = id)
  ∧ (passive (callbacks m) →
     callbacks m2 = callbacks m ∧ callbacks m3 = callbacks m).
Proof.
  intros Hm old new m2 m3 trace. split_and!.
  - intros name id arg cur prev. subst trace.
    destruct (decide (new = old)) as [E|Hne].
    { rewrite ManagerFacts.checkBreakpointChange_same by done. cbn [snd].
      rewrite elem_of_nil. tauto. }
    rewrite ManagerFacts.checkBreakpointChange_changed by done. cbn [snd].
    rewrite (ManagerFacts.table_name_truthy _ Hm).
    fold old new m2.
    rewrite !elem_of_app, !list_elem_of_fmap, !elem_of_cons, elem_of_nil.
    split.
    + intros [(cb & Heq & _)|[(cb & Heq & Hin)|[(cb & Heq & _)|[Heq|[Heq|[]]]]]];
        try discriminate Heq.
      injection Heq as -> -> -> -> ->. split_and!; try done. by exists cb.
    + intros (_ & -> & -> & -> & -> & cb & Hin & <-).
      right. left. by exists cb.
  - intros name id arg cur prev. subst trace.
    destruct (decide (new = old)) as [E|Hne].
    { rewrite ManagerFacts.checkBreakpointChange_same by done. cbn [snd].
      rewrite elem_of_nil. tauto. }
    rewrite ManagerFacts.checkBreakpointChange_changed by done. cbn [snd].
    rewrite (ManagerFacts.table_name_truthy _ Hm).
    fold old new m2. fold m3.
    rewrite !elem_of_app, !list_elem_of_fmap, !elem_of_cons, elem_of_nil.
    split.
    + intros [(cb & Heq & _)|[(cb & Heq & _)|[(cb & Heq & Hin)|[Heq|[Heq|[]]]]]];
        try discriminate Heq.
      injection Heq as -> -> -> -> ->. split_and!; try done. by exists cb.
    + intros (_ & -> & -> & -> & -> & cb & Hin & <-).
      right. right. left. by exists cb.
  - intros (Hchange & _ & Hexit).
    assert (m2 = recordTransition new m) as E2.
    { subst m2. by apply runAll_passive. }
    split; [by rewrite E2|].
    subst m3. rewrite runAll_passive; [by rewrite E2|].
    rewrite E2. unfold registered. cbn [recordTransition callbacks].
    destruct (exit (callbacks m) !! old) as [arr|] eqn:Ea;
      simpl; [by eapply Hexit | constructor].
Qed.

Lemma listeners_match_transition_witness :
  Invoked (OnEnter "md") 3 None "md" (Some "sm")
  ∈ snd (checkBreakpointChange {| innerWidth := 800; innerHeight := 600 |}
           (onEnter "md" (Callback 3 [])
              (onEnter "lg" (Callback 4 [])
                 (construct {| innerWidth := 600; innerHeight := 800 |})))).
Proof.
  destruct (listeners_match_transition
              {| innerWidth := 800; innerHeight := 600 |}
              (onEnter "md" (Callback 3 [])
                 (onEnter "lg" (Callback 4 [])
                    (construct {| innerWidth := 600; innerHeight := 800 |}))))
    as (_ & Henter & _).
  - apply list_elem_of_further, list_elem_of_here.
  - apply Henter. split_and!; try reflexivity.
    + vm_compute. discriminate.
    + exists (Callback 3 []). split; [|reflexivity].
      vm_compute. apply list_elem_of_here.
Defined.

(** ** Listeners stay registered *)

(** When no listener calls back into the manager, a notification leaves
    the three registries as they are: a listener that ran stays
    registered and runs again at the next transition it matches. *)
Theorem passive_listeners_persist (win : Window) (m : BreakpointManager) :
  passive (callbacks m) →
  callbacks (fst (checkBreakpointChange win m)) = callbacks m.
Proof.
  intros (Hchange & Henter & Hexit).
  destruct (decide (getCurrentBreakpoint (innerWidth win)
                    = currentBreakpoint m)) as [E|Hne].
  { by rewrite ManagerFacts.checkBreakpointChange_same. }
  rewrite ManagerFacts.checkBreakpointChange_changed by done. cbn [fst].
  rewrite (runAll_passive (change (callbacks m))) by done.
  cbn [recordTransition callbacks].
  set (exits := if truthy _ then _ else _).
  assert (passiveList exits) as Hexits.
  { unfold exits, registered. destruct (truthy _); [|constructor].
    destruct (exit (callbacks m) !! currentBreakpoint m) as [arr|] eqn:Ea;
      simpl; [by eapply Hexit | constructor]. }
  rewrite (runAll_passive exits) by done. cbn [callbacks].
  rewrite runAll_passive; [done|].
  unfold registered. cbn [callbacks enter].
  match goal with
  | |- passiveList (default [] ?found) => destruct found as [arr|] eqn:Ea
  end; simpl; [by eapply Henter | constructor].
Qed.

Lemma passive_listeners_persist_witness :
  let m := onEnter "md" (Callback 3 [])
             (onChange (Callback 1 [])
                (construct {| innerWidth := 600; innerHeight := 800 |})) in
  callbacks (fst (checkBreakpointChange
                    {| innerWidth := 800; innerHeight := 600 |} m))
  = callbacks m.
Proof.
  intros m.
  apply (passive_listeners_persist
           {| innerWidth := 800; innerHeight := 600 |} m).
  split_and!.
  - repeat constructor.
  - intros name arr.
    change (enter (callbacks m)) with (pushAt "md" (Callback 3 []) ∅).
    destruct (decide ("md" = name)) as [<-|Hn].
    + rewrite ManagerFacts.pushAt_lookup, lookup_empty.
      intros [= <-]. repeat constructor.
    + rewrite ManagerFacts.pushAt_lookup_ne by done.
      by rewrite lookup_empty.
  - intros name arr. change (exit (callbacks m)) with (∅ : gmap string (list callback)).
    by rewrite lookup_empty.
Defined.

(** ** [destroy()] is not final *)

(** [destroy()] twice is [destroy()] once, and it does not disable the
    manager: a change listener registered afterwards is the first thing
    invoked at the next transition that reaches [checkBreakpointChange]. *)
Theorem destroy_then_register (m : BreakpointManager) (cb : callback)
    (win : Window) :
  getCurrentBreakpoint (innerWidth win) ≠ currentBreakpoint m →
  destroy (destroy m) = destroy m
  ∧ head (snd (checkBreakpointChange win (onChange cb (destroy m))))
    = Some (Invoked OnChange (cb_id cb)
              (Some {| oldBreakpoint := currentBreakpoint m;
                       newBreakpoint := getCurrentBreakpoint (innerWidth win);
                       width := innerWidth win;
                       height := innerHeight win |})
              (getCurrentBreakpoint (innerWidth win))
              (Some (currentBreakpoint m))).
Proof.
  intros Hne. split.
  - unfold destroy. simpl. by destruct (resizeObserver m).
  - by rewrite ManagerFacts.checkBreakpointChange_changed.
Qed.

Lemma destroy_then_register_witness :
  let m := construct {| innerWidth := 600; innerHeight := 800 |} in
  head (snd (checkBreakpointChange {| innerWidth := 800; innerHeight := 600 |}
               (onChange (Callback 5 []) (destroy m))))
  = Some (Invoked OnChange 5
            (Some {| oldBreakpoint := "sm"; newBreakpoint := "md";
                     width := 800; height := 600 |})
            "md" (Some "sm")).
Proof.
  intros m.
  apply (destroy_then_register m (Callback 5 [])
           {| innerWidth := 800; innerHeight := 600 |}).
  vm_compute. discriminate.
Defined.

End ManagerSessionFacts.
(* ================================================================== *)
(** * Properties of the DeviceDetector *)
(* ================================================================== *)

Module DeviceFacts.
Import Breakpoints Manager Device Sessions.

(** ** Sanity checks on concrete inputs *)

Example getDeviceInfo_sample :
  let b w h := {| window := {| innerWidth := w; innerHeight := h |};
                  ontouchstart := false; maxTouchPoints := Some 5;
                  msMaxTouchPoints := None; devicePixelRatio := None |} in
  map (λ i, (type i, orientation i, isTouch i))
      [getDeviceInfo (b 500 800); getDeviceInfo (b 900 600);
       getDeviceInfo (b 1200 1200)]
  = [(mobile, portrait, true); (tablet, landscape, true);
     (desktop, landscape, true)].
Proof. reflexivity. Qed.

(** ** The three queries and the reported type *)

(** Of [isMobile()], [isTablet()] and [isDesktop()] exactly one holds,
    and it is the one naming the type [getDeviceInfo()] reports. *)
Theorem device_queries_partition (b : Browser) :
  (isMobile b = true ↔ type (getDeviceInfo b) = mobile)
  ∧ (isTablet b = true ↔ type (getDeviceInfo b) = tablet)
  ∧ (isDesktop b = true ↔ type (getDeviceInfo b) = desktop)
  ∧ (isMobile b, isTablet b, isDesktop b)
    ∈ [(true, false, false); (false, true, false); (false, false, true)].
Proof.
  unfold isMobile, isTablet, isDesktop, getDeviceInfo. cbn [type].
  destruct (Z.ltb_spec (innerWidth (window b)) 768),
           (Z.ltb_spec (innerWidth (window b)) 1024),
           (Z.geb_spec (innerWidth (window b)) 768),
           (Z.geb_spec (innerWidth (window b)) 1024);
    try lia; cbn [andb];
    (split_and!; [done | done | done |]);
    repeat first [apply list_elem_of_here | apply list_elem_of_further].
Qed.

(** The detector and the breakpoint manager, with thresholds of their
    own, agree at every width: the device is mobile exactly below the
    breakpoint md, a tablet exactly at md, and a desktop exactly from lg
    on. *)
Theorem device_type_matches_breakpoint (b : Browser) :
  let current := getCurrentBreakpoint (innerWidth (window b)) in
  (type (getDeviceInfo b) = mobile ↔ isUp current "md" = false)
  ∧ (type (getDeviceInfo b) = tablet ↔ current = "md")
  ∧ (type (getDeviceInfo b) = desktop ↔ isUp current "lg" = true).
Proof.
  intros current. unfold current, getDeviceInfo. cbn [type].
  rewrite BreakpointFacts.getCurrentBreakpoint_bands.
  repeat match goal with
         | |- context [?a <? ?b] => destruct (Z.ltb_spec a b)
         end; try lia; split_and!; done.
Qed.

(** ** Orientation *)

(** Turning a viewport that is not square flips the orientation; a
    square viewport is landscape either way. *)
Theorem orientation_rotates (b : Browser) :
  (getOrientation b = portrait → getOrientation (rotated b) = landscape)
  ∧ (innerWidth (window b) ≠ innerHeight (window b) →
     getOrientation b = landscape → getOrientation (rotated b) = portrait)
  ∧ (innerWidth (window b) = innerHeight (window b) →
     getOrientation b = landscape ∧ getOrientation (rotated b) = landscape).
Proof.
  unfold getOrientation, rotated. cbn [window innerWidth innerHeight].
  destruct (Z.gtb_spec (innerHeight (window b)) (innerWidth (window b))),
           (Z.gtb_spec (innerWidth (window b)) (innerHeight (window b)));
    split_and!; intros; first [done | lia | split; done].
Qed.

Lemma orientation_rotates_witness :
  let b := {| window := {| innerWidth := 900; innerHeight := 600 |};
              ontouchstart := false; maxTouchPoints := None;
              msMaxTouchPoints := None; devicePixelRatio := None |} in
  getOrientation (rotated b) = portrait.
Proof.
  intros b. destruct (orientation_rotates b) as (_ & H & _).
  apply H; [simpl; lia | reflexivity].
Defined.

(** ** Pixel ratio *)

(** The reported pixel ratio is never zero: an undefined or zero
    [devicePixelRatio] is reported as 1, any other value as it is. *)
Theorem pixelRatio_never_zero (b : Browser) :
  ¬ QArith_base.Qeq (pixelRatio (getDeviceInfo b)) (QArith_base.Qmake 0 1)
  ∧ (∀ q, devicePixelRatio b = Some q →
          ¬ QArith_base.Qeq q (QArith_base.Qmake 0 1) →
          pixelRatio (getDeviceInfo b) = q)
  ∧ (devicePixelRatio b = None →
     pixelRatio (getDeviceInfo b) = QArith_base.Qmake 1 1).
Proof.
  unfold getDeviceInfo, pixelRatioOr1. cbn [pixelRatio]. split_and!.
  - destruct (devicePixelRatio b) as [q|]; [|done].
    destruct (QArith_base.Qeq_bool q (QArith_base.Qmake 0 1)) eqn:E; [done|].
    by apply QArith_base.Qeq_bool_neq.
  - intros q -> Hq.
    destruct (QArith_base.Qeq_bool q (QArith_base.Qmake 0 1)) eqn:E; [|done].
    by apply QArith_base.Qeq_bool_iff in E.
  - by intros ->.
Qed.

Lemma pixelRatio_never_zero_witness :
  let b := {| window := {| innerWidth := 900; innerHeight := 600 |};
              ontouchstart := false; maxTouchPoints := None;
              msMaxTouchPoints := None;
              devicePixelRatio := Some (QArith_base.Qmake 3 2) |} in
  pixelRatio (getDeviceInfo b) = QArith_base.Qmake 3 2.
Proof.
  intros b. destruct (pixelRatio_never_zero b) as (_ & H & _).
  apply H; [reflexivity | discriminate].
Defined.

End DeviceFacts.
(* ================================================================== *)
(** * Properties of sessions with the navigation *)
(* ================================================================== *)

Module NavSessionFacts.
Import Nav Sessions.

(** ** Sanity check on concrete inputs *)

(** A menu opened at a desktop width and then shrunk to a mobile width
    stays open and the page is not scroll-locked. *)
Example open_on_desktop_then_shrink :
  let s0 := {| toggle := {| classList := []; attributes := ∅ |};
               menu := {| classList := []; attributes := ∅ |};
               isOpen := false; isMobile := false; mobileBreakpoint := 768;
               bodyOverflow := ""; toggleFocused := false |} in
  let s := interact [ToggleClick; Resized 500] s0 in
  (isOpen s, isMobile s, bodyOverflow s) = (true, true, "").
Proof. reflexivity. Qed.

(** ** Class lists *)

Lemma hasClass_add token el : hasClass token (classList_add token el) = true.
Proof.
  unfold hasClass, classList_add. cbn [classList].
  destruct (existsb (String.eqb token) (classList el)) eqn:E; [done|].
  rewrite existsb_app. cbn [existsb]. by rewrite String.eqb_refl, orb_true_r.
Qed.

Lemma hasClass_remove token el :
  hasClass token (classList_remove token el) = false.
Proof. apply NavFacts.classList_remove_gone. Qed.

Lemma classList_remove_add token el :
  hasClass token el = false →
  classList_remove token (classList_add token el) = el.
Proof.
  destruct el as [classes attrs].
  unfold hasClass, classList_remove, classList_add. cbn [classList attributes].
  intros H. rewrite H. f_equal.
  rewrite List.filter_app. cbn [List.filter].
  rewrite String.eqb_refl. cbn [negb]. rewrite app_nil_r.
  induction classes as [|t l IH]; [done|].
  cbn [existsb] in H. apply orb_false_elim in H as [Ht Hl].
  cbn [List.filter]. rewrite Ht. cbn [negb]. by rewrite IH.
Qed.

(** ** The markers follow [isOpen] *)

Lemma openMenu_coherent s : coherent (fst (openMenu s)).
Proof.
  unfold coherent, openMenu. cbn [fst isOpen menu toggle]. split_and!.
  - apply hasClass_add.
  - apply (hasClass_add "is-active" (toggle s)).
  - unfold getAttribute, setAttribute. cbn [attributes].
    apply lookup_insert_eq.
Qed.

Lemma closeMenu_coherent s : coherent (fst (closeMenu s)).
Proof.
  unfold coherent, closeMenu. cbn [fst isOpen menu toggle]. split_and!.
  - apply hasClass_remove.
  - apply (hasClass_remove "is-active" (toggle s)).
  - unfold getAttribute, setAttribute. cbn [attributes].
    apply lookup_insert_eq.
Qed.

Lemma handle_coherent i s :
  coherent s → coherent (fst (handle i s)).
Proof.
  intros Hs. destruct i as [|inside|key| |w]; cbn [handle].
  - unfold toggleMenu.
    destruct (isOpen s); [apply closeMenu_coherent | apply openMenu_coherent].
  - destruct (isOpen s && negb inside); [apply closeMenu_coherent | done].
  - destruct (String.eqb key "Escape" && isOpen s); [|done].
    pose proof (closeMenu_coherent s) as H.
    destruct (closeMenu s) as [s1 out]. exact H.
  - destruct (isMobile s && isOpen s); [apply closeMenu_coherent | done].
  - unfold checkViewport.
    destruct (isMobile s && _ && _); [apply closeMenu_coherent | done].
Qed.

(** Through any sequence of interactions the class markers of the menu
    and of the toggle and the aria-expanded attribute say what [isOpen]
    says, provided they did at the start; and they do in any case from
    the first click on the toggle. *)
Theorem markers_follow_isOpen (interactions : list Interaction)
    (s : ResponsiveNav) :
  (coherent s → coherent (interact interactions s))
  ∧ (ToggleClick ∈ interactions → coherent (interact interactions s)).
Proof.
  assert (∀ l s0, coherent s0 → coherent (interact l s0)) as Hkeep.
  { induction l as [|i l IH]; intros s0 H0; [done|].
    change (interact (i :: l) s0) with (interact l (fst (handle i s0))).
    apply IH. by apply handle_coherent. }
  split; [apply Hkeep|].
  revert s. induction interactions as [|i l IH]; intros s Hin.
  - by apply elem_of_nil in Hin.
  - apply elem_of_cons in Hin as [<-|Hin];
      [|change (interact (i :: l) s) with (interact l (fst (handle i s)));
        by apply IH].
    change (interact (ToggleClick :: l) s)
      with (interact l (fst (handle ToggleClick s))).
    apply Hkeep. cbn [handle]. unfold toggleMenu.
    destruct (isOpen s); [apply closeMenu_coherent | apply openMenu_coherent].
Qed.

Lemma markers_follow_isOpen_witness :
  let s0 := {| toggle := {| classList := ["is-active"]; attributes := ∅ |};
               menu := {| classList := []; attributes := ∅ |};
               isOpen := false; isMobile := true; mobileBreakpoint := 768;
               bodyOverflow := ""; toggleFocused := false |} in
  coherent (interact [LinkClick; ToggleClick; KeyDown "Tab"] s0).
Proof.
  intros s0.
  destruct (markers_follow_isOpen [LinkClick; ToggleClick; KeyDown "Tab"] s0)
    as [_ H].
  apply H. apply list_elem_of_further, list_elem_of_here.
Defined.

(** ** The scroll lock *)

Lemma handle_lock i s :
  lockedOnlyWhenOpen s → lockedOnlyWhenOpen (fst (handle i s)).
Proof.
  unfold lockedOnlyWhenOpen. intros Hs.
  destruct i as [|inside|key| |w]; cbn [handle].
  - unfold toggleMenu. by destruct (isOpen s).
  - by destruct (isOpen s && negb inside).
  - by destruct (String.eqb key "Escape" && isOpen s).
  - by destruct (isMobile s && isOpen s).
  - unfold checkViewport. by destruct (isMobile s && _ && _).
Qed.

(** When the page is not scroll-locked behind a closed menu at the
    start, no sequence of interactions leaves it so: the body overflow
    is "hidden" only while the menu is open. *)
Theorem scroll_locked_only_when_open (interactions : list Interaction)
    (s : ResponsiveNav) :
  lockedOnlyWhenOpen s → lockedOnlyWhenOpen (interact interactions s).
Proof.
  revert s. induction interactions as [|i l IH]; intros s Hs; [done|].
  change (interact (i :: l) s) with (interact l (fst (handle i s))).
  apply IH. by apply handle_lock.
Qed.

Lemma scroll_locked_only_when_open_witness :
  let s0 := {| toggle := {| classList := []; attributes := ∅ |};
               menu := {| classList := []; attributes := ∅ |};
               isOpen := false; isMobile := true; mobileBreakpoint := 768;
               bodyOverflow := ""; toggleFocused := false |} in
  lockedOnlyWhenOpen (interact [ToggleClick; Resized 900] s0).
Proof.
  intros s0.
  apply (scroll_locked_only_when_open [ToggleClick; Resized 900] s0).
  intros H. discriminate H.
Defined.

(** ** Opening and closing again *)

(** Two clicks on the toggle of a menu that shows as closed give back
    the state before the first click: classes, attributes, body overflow
    and fields. *)
Theorem toggle_twice_restores (s : ResponsiveNav) :
  showsClosed s → interact [ToggleClick; ToggleClick] s = s.
Proof.
  intros (Hopen & Hmenu & Htoggle & Haria & Hflow).
  destruct s as [t mn o mob bp flow foc].
  cbn [isOpen menu toggle bodyOverflow] in *. subst o flow.
  unfold interact. cbn [fold_left handle]. unfold toggleMenu.
  cbn [isOpen openMenu fst closeMenu menu toggle isMobile mobileBreakpoint
       toggleFocused bodyOverflow].
  rewrite (classList_remove_add "is-open" mn Hmenu).
  rewrite NavFacts.classList_remove_setAttribute.
  rewrite (classList_remove_add "is-active" t Htoggle).
  f_equal. destruct t as [classes attrs].
  unfold setAttribute, getAttribute in *. cbn [classList attributes] in *.
  f_equal. rewrite insert_insert_eq. by apply insert_id.
Qed.

Lemma toggle_twice_restores_witness :
  let s := {| toggle := {| classList := ["nav-toggle"];
                           attributes := {["aria-expanded" := "false"]} |};
              menu := {| classList := ["nav-menu"]; attributes := ∅ |};
              isOpen := false; isMobile := true; mobileBreakpoint := 768;
              bodyOverflow := ""; toggleFocused := false |} in
  interact [ToggleClick; ToggleClick] s = s.
Proof.
  intros s. apply (toggle_twice_restores s).
  unfold showsClosed. split_and!; reflexivity.
Defined.

(** ** Leaving mobile mode *)

(** A resize that takes the navigation from mobile to a width at or
    above the mobile threshold leaves the menu closed, and the page not
    scroll-locked if it was not locked behind a closed menu before. *)
Theorem leaving_mobile_closes (w : Z) (s : ResponsiveNav) :
  isMobile s = true → mobileBreakpoint s ≤ w →
  let s' := fst (handle (Resized w) s) in
  isMobile s' = false
  ∧ isOpen s' = false
  ∧ (lockedOnlyWhenOpen s → bodyOverflow s' ≠ "hidden").
Proof.
  intros Hm Hw. cbn [handle]. unfold checkViewport. rewrite Hm.
  cbn [setMobile isMobile isOpen].
  destruct (Z.ltb_spec w (mobileBreakpoint s)); [lia|]. cbn [negb andb].
  destruct (isOpen s) eqn:Eo; cbn [fst closeMenu isMobile isOpen setMobile
                                   bodyOverflow].
  - split_and!; done.
  - split_and!; [done | done |]. intros Hlock Hh.
    specialize (Hlock Hh). congruence.
Qed.

Lemma leaving_mobile_closes_witness :
  let s := {| toggle := {| classList := ["is-active"]; attributes := ∅ |};
              menu := {| classList := ["is-open"]; attributes := ∅ |};
              isOpen := true; isMobile := true; mobileBreakpoint := 768;
              bodyOverflow := "hidden"; toggleFocused := false |} in
  isMobile (fst (handle (Resized 1024) s)) = false
  ∧ isOpen (fst (handle (Resized 1024) s)) = false
  ∧ (lockedOnlyWhenOpen s →
     bodyOverflow (fst (handle (Resized 1024) s)) ≠ "hidden").
Proof.
  intros s. apply (leaving_mobile_closes 1024 s); [reflexivity | simpl; lia].
Defined.

(** ** The mobile flag and the device detector *)

Lemma handle_mobileBreakpoint i s :
  mobileBreakpoint (fst (handle i s)) = mobileBreakpoint s.
Proof.
  destruct i as [|inside|key| |w]; cbn [handle].
  - unfold toggleMenu. by destruct (isOpen s).
  - by destruct (isOpen s && negb inside).
  - by destruct (String.eqb key "Escape" && isOpen s).
  - by destruct (isMobile s && isOpen s).
  - unfold checkViewport. by destruct (isMobile s && _ && _).
Qed.

Lemma interact_mobileBreakpoint l s :
  mobileBreakpoint (interact l s) = mobileBreakpoint s.
Proof.
  revert s. induction l as [|i l IH]; intros s; [done|].
  unfold interact in *. cbn [fold_left]. rewrite IH.
  apply handle_mobileBreakpoint.
Qed.

Lemma handle_resized_isMobile w s :
  isMobile (fst (handle (Resized w) s)) = (w <? mobileBreakpoint s).
Proof.
  cbn [handle]. unfold checkViewport.
  by destruct (isMobile s && _ && _).
Qed.

(** The navigation's own mobile threshold never changes, so after every
    settled resize, whatever happened before, its mobile flag is what
    [DeviceDetector.isMobile()] answers for the same window. *)
Theorem mobile_flag_matches_detector (navSelector : string)
    (markup : NavMarkup) (w0 : Z) (overflow : string) (s0 : ResponsiveNav)
    (interactions : list Interaction) (b : Device.Browser) :
  fst (construct navSelector (Some markup) w0 overflow) = Some s0 →
  isMobile (interact
              (interactions
                 ++ [Resized (Manager.innerWidth (Device.window b))]) s0)
  = Device.isMobile b.
Proof.
  intros Hc. unfold interact. rewrite fold_left_app. cbn [fold_left].
  rewrite handle_resized_isMobile.
  fold (interact interactions s0). rewrite interact_mobileBreakpoint.
  unfold construct in Hc.
  destruct (foundToggle markup), (foundMenu markup); try done.
  cbn [fst] in Hc. injection Hc as <-. reflexivity.
Qed.

Lemma mobile_flag_matches_detector_witness :
  let markup := {| foundToggle := Some {| classList := []; attributes := ∅ |};
                   foundMenu := Some {| classList := []; attributes := ∅ |} |} in
  let b := {| Device.window := {| Manager.innerWidth := 700;
                                  Manager.innerHeight := 900 |};
              Device.ontouchstart := false; Device.maxTouchPoints := None;
              Device.msMaxTouchPoints := None;
              Device.devicePixelRatio := None |} in
  ∃ s0, fst (construct ".nav" (Some markup) 1200 "") = Some s0
        ∧ isMobile (interact ([ToggleClick] ++ [Resized 700]) s0)
          = Device.isMobile b.
Proof.
  intros markup b. eexists. split; [reflexivity|].
  apply (mobile_flag_matches_detector ".nav" markup 1200 "" _ [ToggleClick] b).
  reflexivity.
Defined.

End NavSessionFacts.
(* ================================================================== *)
(** * Properties of the status panel and of the log as a whole *)
(* ================================================================== *)

Module DisplayFacts.
Import Breakpoints Log Display Sessions.

(** ** Sanity checks on concrete inputs *)

Example texts_sample :
  (dimensionsText 1280 720, capitalize "landscape", capitalize "",
   toUpperCase "xxl", numberToString (-3))
  = ("1280×720", "Landscape", "", "XXL", "-3").
Proof. reflexivity. Qed.

(** ** Upper-casing *)

Lemma upperAscii_idem c : upperAscii (upperAscii c) = upperAscii c.
Proof. by destruct c as [[] [] [] [] [] [] [] []]. Qed.

(** [toUpperCase] and [capitalize] keep the length of the string and
    doing them twice changes nothing more; [capitalize] touches the
    first character only. *)
Theorem upper_casing_stable (str : string) :
  toUpperCase (toUpperCase str) = toUpperCase str
  ∧ String.length (toUpperCase str) = String.length str
  ∧ capitalize (capitalize str) = capitalize str
  ∧ String.length (capitalize str) = String.length str
  ∧ String.substring 1 (String.length str) (capitalize str)
    = String.substring 1 (String.length str) str
  ∧ String.substring 0 1 (capitalize str)
    = toUpperCase (String.substring 0 1 str).
Proof.
  split_and!.
  - induction str as [|c str IH]; simpl; [done|].
    by rewrite upperAscii_idem, IH.
  - induction str as [|c str IH]; simpl; [done|]. by rewrite IH.
  - destruct str as [|c str]; simpl; [done|]. by rewrite upperAscii_idem.
  - by destruct str.
  - by destruct str.
  - destruct str as [|c str]; [done|]. cbn [capitalize String.substring].
    by destruct str.
Qed.

(** ** The dimension texts *)

Lemma numberToString_inj n n' :
  numberToString n = numberToString n' → n = n'.
Proof.
  unfold numberToString. intros H.
  assert (∀ z, Z.to_int z ≠ Decimal.Pos Decimal.Nil
               ∧ Z.to_int z ≠ Decimal.Neg Decimal.Nil) as Hnil.
  { intros [|p|p]; simpl; split; try discriminate;
      intros [= E]; by apply DecimalPos.Unsigned.to_uint_nonnil in E. }
  apply DecimalZ.to_int_inj.
  assert (Some (Z.to_int n) = Some (Z.to_int n')) as [= E]; [|done].
  rewrite <- (DecimalString.NilZero.isi (Z.to_int n)) by apply Hnil.
  rewrite <- (DecimalString.NilZero.isi (Z.to_int n')) by apply Hnil.
  by rewrite H.
Qed.

Lemma string_of_uint_numeric d c :
  In c (String.list_ascii_of_string (DecimalString.NilEmpty.string_of_uint d)) →
  numeric c.
Proof.
  induction d; simpl; intros Hc; try done;
    (destruct Hc as [<-|Hc];
     [right; split; apply Nat.leb_le; reflexivity | by apply IHd]).
Qed.

Lemma numberToString_numeric n c :
  In c (String.list_ascii_of_string (numberToString n)) → numeric c.
Proof.
  unfold numberToString.
  assert (∀ d, In c (String.list_ascii_of_string
                       (DecimalString.NilZero.string_of_uint d)) →
               numeric c) as Hu.
  { intros d. destruct d;
      try match goal with
          | |- In c (String.list_ascii_of_string
                       (DecimalString.NilZero.string_of_uint ?x)) → _ =>
              exact (string_of_uint_numeric x c)
          end.
    simpl. intros [<-|[]]. right. split; apply Nat.leb_le; reflexivity. }
  destruct (Z.to_int n) as [d|d]; [exact (Hu d)|].
  cbn [DecimalString.NilZero.string_of_int String.list_ascii_of_string In].
  intros [<-|Hc]; [by left | exact (Hu d Hc)].
Qed.

(** A text cut at a separator that its first part cannot contain has
    only one reading. *)
Lemma split_at_separator (sep : Ascii.ascii) (a a' r r' : string) :
  (∀ c, In c (String.list_ascii_of_string a) → c ≠ sep) →
  (∀ c, In c (String.list_ascii_of_string a') → c ≠ sep) →
  a +:+ String sep r = a' +:+ String sep r' → a = a' ∧ r = r'.
Proof.
  revert a'. induction a as [|c a IH]; intros [|c' a'] Ha Ha' E;
    simpl in *.
  - by injection E as ->.
  - injection E as <- _. exfalso. by apply (Ha' sep); [left|].
  - injection E as -> _. exfalso. by apply (Ha sep); [left|].
  - injection E as -> E.
    destruct (IH a') as [-> ->]; auto.
Qed.

Lemma numeric_not_separator c :
  numeric c → c ≠ Ascii.ascii_of_nat 195 ∧ c ≠ Ascii.ascii_of_nat 32.
Proof.
  intros [->|Hc]; [split; discriminate|].
  split; intros ->; vm_compute in Hc; lia.
Qed.

(** The two texts written for the viewport size determine the size: two
    sizes are shown by the same text only when they are the same. *)
Theorem dimension_texts_determine_size (w h w' h' : Z) :
  (dimensionsText w h = dimensionsText w' h' → w = w' ∧ h = h')
  ∧ (sizeText w h = sizeText w' h' → w = w' ∧ h = h').
Proof.
  unfold dimensionsText, sizeText. split; intros E.
  - change ("×" +:+ numberToString h)
      with (String (Ascii.ascii_of_nat 195)
              (String (Ascii.ascii_of_nat 151) (numberToString h))) in E.
    change ("×" +:+ numberToString h')
      with (String (Ascii.ascii_of_nat 195)
              (String (Ascii.ascii_of_nat 151) (numberToString h'))) in E.
    apply split_at_separator in E as [Ew Eh].
    + injection Eh as Eh.
      split; by apply numberToString_inj.
    + intros c Hc%numberToString_numeric%numeric_not_separator. tauto.
    + intros c Hc%numberToString_numeric%numeric_not_separator. tauto.
  - change (" × " +:+ numberToString h)
      with (String (Ascii.ascii_of_nat 32)
              (String (Ascii.ascii_of_nat 195)
                 (String (Ascii.ascii_of_nat 151)
                    (String (Ascii.ascii_of_nat 32) (numberToString h)))))
      in E.
    change (" × " +:+ numberToString h')
      with (String (Ascii.ascii_of_nat 32)
              (String (Ascii.ascii_of_nat 195)
                 (String (Ascii.ascii_of_nat 151)
                    (String (Ascii.ascii_of_nat 32) (numberToString h')))))
      in E.
    apply split_at_separator in E as [Ew Eh].
    + injection Eh as Eh.
      split; by apply numberToString_inj.
    + intros c Hc%numberToString_numeric%numeric_not_separator. tauto.
    + intros c Hc%numberToString_numeric%numeric_not_separator. tauto.
Qed.

Lemma dimension_texts_determine_size_witness :
  dimensionsText 1280 720 = "1280×720" ∧ (1280 = 1280 ∧ 720 = 720).
Proof.
  split; [reflexivity|].
  apply (dimension_texts_determine_size 1280 720 1280 720). reflexivity.
Defined.

(** ** The log keeps the latest ten *)

Lemma evict_elements fuel (l : list Node) :
  Forall (λ n, isElement n = true) l → (length l ≤ fuel)%nat →
  evict fuel l = take 10 l.
Proof.
  revert l. induction fuel as [|fuel IH]; intros l Hall Hl.
  - destruct l; [done | simpl in Hl; lia].
  - assert (children l = l) as Hch.
    { unfold children. clear Hl IH.
      induction Hall as [|n l Hn _ IHl]; simpl; [done|]. by rewrite Hn, IHl. }
    simpl. rewrite Hch.
    destruct (Nat.ltb_spec 10 (length l)) as [Hgt|Hle].
    + rewrite LogFacts.removelast_take, IH.
      * rewrite take_take. f_equal. lia.
      * by apply Forall_take.
      * rewrite length_take. lia.
    + by rewrite take_ge.
Qed.

Lemma addAll_snoc inputs i u :
  addAll (inputs ++ [i]) u
  = addLogEntry (timestamp i) (changedFrom i) (changedTo i) (addAll inputs u).
Proof. unfold addAll. by rewrite fold_left_app. Qed.

(** Starting from a list that holds at most ten entries and no other
    nodes, after any number of insertions the log holds the ten most
    recent entries, newest first: the new ones in reverse order of
    insertion, then as many of the old ones as still fit. *)
Theorem log_keeps_latest_ten (u : UIUpdater) (l : list Node)
    (inputs : list LogInput) :
  breakpointLogEl u = Some l →
  Forall (λ n, isElement n = true) l → (length l ≤ 10)%nat →
  breakpointLogEl (addAll inputs u)
  = Some (take 10 (reverse (entriesFrom (nextNode u) inputs) ++ l))
  ∧ nextNode (addAll inputs u) = (nextNode u + length inputs)%nat.
Proof.
  intros Hu Hall Hl.
  induction inputs as [|i inputs [IHlog IHnext]] using rev_ind.
  - simpl. rewrite Hu, take_ge by done. split; [done | lia].
  - rewrite addAll_snoc. unfold addLogEntry. rewrite IHlog. cbn.
    rewrite IHnext, length_app. split; [|simpl; lia]. f_equal.
    unfold entriesFrom. rewrite imap_app, reverse_app. cbn.
    rewrite Nat.add_0_r.
    set (entry := LiElement _ _).
    set (older := reverse _ ++ l).
    change (evict (S (length (take 10 older))) (entry :: take 10 older)
            = take 10 (entry :: older)).
    rewrite evict_elements.
    + cbn. f_equal. rewrite take_take. f_equal.
    + constructor; [done|]. apply Forall_take, Forall_app. split; [|done].
      apply Forall_reverse, Forall_forall.
      intros n (k & x & -> & _)%elem_of_lookup_imap. done.
    + done.
Qed.

Lemma log_keeps_latest_ten_witness :
  let u := {| breakpointLogEl := Some [LiElement 0 "old"]; nextNode := 1 |} in
  let i t := {| timestamp := t; changedFrom := "sm"; changedTo := "md" |} in
  breakpointLogEl (addAll [i "10:00:00"; i "10:00:05"] u)
  = Some [LiElement 2 "10:00:05 - Changed from SM to MD";
          LiElement 1 "10:00:00 - Changed from SM to MD";
          LiElement 0 "old"].
Proof.
  intros u i.
  destruct (log_keeps_latest_ten u [LiElement 0 "old"]
              [i "10:00:00"; i "10:00:05"]) as [H _].
  - reflexivity.
  - repeat constructor.
  - simpl. lia.
  - exact H.
Defined.

End DisplayFacts.
(* ================================================================== *)
(** * Properties of the application coordinator *)
(* ================================================================== *)

Module AppFacts.
Import Breakpoints Manager Device Display App Sessions.

(** ** Sanity check on concrete inputs *)

Example app_sample :
  let b w h := {| window := {| innerWidth := w; innerHeight := h |};
                  ontouchstart := false; maxTouchPoints := None;
                  msMaxTouchPoints := None; devicePixelRatio := None |} in
  let e := {| currentBreakpointEl := Some "";
              viewportDimensionsEl := Some "";
              deviceTypeEl := Some ""; orientationEl := None;
              viewportSizeEl := None; touchDeviceEl := Some "" |} in
  let l := {| Log.breakpointLogEl := Some []; Log.nextNode := 0 |} in
  let app0 := construct (b 600 800) None "" e l in
  let '(app, out) := steps [BodyResized (b 1100 800) "10:15:00"] app0 in
  (panel app0, panel app, Log.logNodes (log app), out)
  = ({| currentBreakpointEl := Some "SM";
        viewportDimensionsEl := Some "600×800";
        deviceTypeEl := Some "Mobile"; orientationEl := None;
        viewportSizeEl := None; touchDeviceEl := Some "No" |},
     {| currentBreakpointEl := Some "LG";
        viewportDimensionsEl := Some "1100×800";
        deviceTypeEl := Some "Desktop"; orientationEl := None;
        viewportSizeEl := None; touchDeviceEl := Some "No" |},
     [Log.LiElement 0 "10:15:00 - Changed from SM to LG"],
     [BreakpointChanged {| oldBreakpoint := "sm"; newBreakpoint := "lg";
                           width := 1100; height := 800 |};
      DesktopView]).
Proof. vm_compute. reflexivity. Qed.

(** ** One notification *)

Lemma step_same b timestamp app :
  getCurrentBreakpoint (innerWidth (window b))
  = currentBreakpoint (breakpointManager app) →
  step (BodyResized b timestamp) app = (app, []).
Proof.
  intros E. cbn [step].
  rewrite ManagerFacts.checkBreakpointChange_same by done.
  by destruct app.
Qed.

(** The console lines after the change line. *)
Lemma step_changed b timestamp app :
  appRegistry app →
  getCurrentBreakpoint (innerWidth (window b))
  ≠ currentBreakpoint (breakpointManager app) →
  let old := currentBreakpoint (breakpointManager app) in
  let new := getCurrentBreakpoint (innerWidth (window b)) in
  let data := {| oldBreakpoint := old; newBreakpoint := new;
                 width := innerWidth (window b);
                 height := innerHeight (window b) |} in
  step (BodyResized b timestamp) app
  = ({| breakpointManager := recordTransition new (breakpointManager app);
        navigation := navigation app;
        panel := refresh new b (panel app);
        log := Log.addLogEntry timestamp old new (log app) |},
     BreakpointChanged data ::
     (if String.eqb new "lg" || String.eqb new "xl" then [DesktopView]
      else if String.eqb new "xs" || String.eqb new "sm" then [MobileView]
      else [])).
Proof.
  intros Hreg Hne old new data. cbn [step].
  rewrite ManagerFacts.checkBreakpointChange_changed by done.
  unfold appRegistry in Hreg.
  destruct app as [m nav e l]. cbn [breakpointManager navigation panel log]
    in *.
  destruct m as [cur prev obs cbs]. cbn [callbacks currentBreakpoint] in *.
  subst cbs. unfold registered, recordTransition.
  cbn [callbacks change enter exit currentBreakpoint previousBreakpoint
       resizeObserver runAll fold_left appCallback cb_body runBody map
       cb_id app].
  rewrite !lookup_empty. cbn [default].
  destruct (truthy (Some cur)); reflexivity.
Qed.

(** ** The registry and the indicator along a session *)

Lemma refresh_indicator breakpoint b e :
  currentBreakpointEl (refresh breakpoint b e)
  = setText (currentBreakpointEl e) (Log.toUpperCase breakpoint).
Proof. reflexivity. Qed.

Lemma setText_shows el text shown :
  setText el text = Some shown → shown = text.
Proof. destruct el; simpl; congruence. Qed.

Lemma step_registry ev app :
  appRegistry app → appRegistry (fst (step ev app)).
Proof.
  intros Hreg. destruct ev as [b timestamp|b|b|i]; try done.
  destruct (decide (getCurrentBreakpoint (innerWidth (window b))
                    = currentBreakpoint (breakpointManager app))) as [E|Hne].
  - by rewrite step_same.
  - by rewrite step_changed.
Qed.

Lemma step_indicator ev app :
  appRegistry app → indicatorCurrent app →
  indicatorCurrent (fst (step ev app)).
Proof.
  intros Hreg Hind. destruct ev as [b timestamp|b|b|i].
  - destruct (decide (getCurrentBreakpoint (innerWidth (window b))
                      = currentBreakpoint (breakpointManager app)))
      as [E|Hne].
    + by rewrite step_same.
    + rewrite step_changed by done. intros text. cbn.
      apply setText_shows.
  - intros text. cbn. apply setText_shows.
  - intros text. cbn. apply setText_shows.
  - exact Hind.
Qed.

(** From construction on, whatever the page does, the breakpoint
    indicator (when the page has one) shows the upper-cased name of the
    breakpoint the manager holds, and the manager's registries hold the
    app's change listener and nothing else. *)
Theorem indicator_never_stale (b0 : Browser) (nav : option Nav.NavMarkup)
    (overflow : string) (e : Elements) (l : Log.UIUpdater)
    (evs : list AppEvent) :
  let app := fst (steps evs (construct b0 nav overflow e l)) in
  indicatorCurrent app ∧ appRegistry app.
Proof.
  assert (∀ app0, appRegistry app0 → indicatorCurrent app0 →
            indicatorCurrent (fst (steps evs app0))
            ∧ appRegistry (fst (steps evs app0))) as Hgen.
  { induction evs as [|ev evs IH]; intros app0 Hreg Hind; [done|].
    cbn [steps].
    pose proof (step_registry ev app0 Hreg) as Hreg1.
    pose proof (step_indicator ev app0 Hreg Hind) as Hind1.
    destruct (step ev app0) as [app1 out1]. cbn [fst] in *.
    specialize (IH app1 Hreg1 Hind1).
    by destruct (steps evs app1) as [app2 out2]. }
  apply Hgen.
  - reflexivity.
  - intros text. cbn. apply setText_shows.
Qed.

(** ** What a transition does to the page *)

(** A notification that finds a new breakpoint makes the app refresh the
    whole panel with the new breakpoint and the notified window, add
    exactly one entry to the log, naming the old and the new breakpoint,
    and write the change line; nothing is registered or unregistered at
    the manager.  A notification that finds the same breakpoint changes
    nothing and writes nothing. *)
Theorem transition_updates_page (b : Browser) (timestamp : string)
    (app : ResponsiveApp) :
  appRegistry app →
  let old := currentBreakpoint (breakpointManager app) in
  let new := getCurrentBreakpoint (innerWidth (window b)) in
  let app' := fst (step (BodyResized b timestamp) app) in
  let out := snd (step (BodyResized b timestamp) app) in
  (new = old → app' = app ∧ out = [])
  ∧ (new ≠ old →
     panel app' = refresh new b (panel app)
     ∧ log app' = Log.addLogEntry timestamp old new (log app)
     ∧ get (breakpointManager app') = new
     ∧ callbacks (breakpointManager app') = callbacks (breakpointManager app)
     ∧ navigation app' = navigation app
     ∧ List.filter isBreakpointChanged out
       = [BreakpointChanged
            {| oldBreakpoint := old; newBreakpoint := new;
               width := innerWidth (window b);
               height := innerHeight (window b) |}]).
Proof.
  intros Hreg old new app' out. subst app' out. split.
  - intros E. by rewrite step_same.
  - intros Hne. rewrite step_changed by done. fold old new.
    split_and!; try reflexivity.
    cbn [snd List.filter isBreakpointChanged]. f_equal.
    by destruct (_ || _); [|destruct (_ || _)].
Qed.

Lemma transition_updates_page_witness :
  let b := {| window := {| innerWidth := 1100; innerHeight := 800 |};
              ontouchstart := false; maxTouchPoints := None;
              msMaxTouchPoints := None; devicePixelRatio := None |} in
  let e := {| currentBreakpointEl := Some ""; viewportDimensionsEl := None;
              deviceTypeEl := None; orientationEl := None;
              viewportSizeEl := None; touchDeviceEl := None |} in
  let app := construct b None "" e
               {| Log.breakpointLogEl := Some []; Log.nextNode := 0 |} in
  fst (step (BodyResized b "10:15:00") app) = app
  ∧ snd (step (BodyResized b "10:15:00") app) = [].
Proof.
  intros b e app.
  destruct (transition_updates_page b "10:15:00" app) as [H _];
    [reflexivity|].
  apply H. reflexivity.
Defined.

(** ** One log entry per transition *)

Lemma step_current ev app :
  appRegistry app →
  currentBreakpoint (breakpointManager (fst (step ev app)))
  = match ev with
    | BodyResized b _ => getCurrentBreakpoint (innerWidth (window b))
    | _ => currentBreakpoint (breakpointManager app)
    end.
Proof.
  intros Hreg. destruct ev as [b timestamp|b|b|i]; try done.
  destruct (decide (getCurrentBreakpoint (innerWidth (window b))
                    = currentBreakpoint (breakpointManager app))) as [E|Hne].
  - by rewrite step_same.
  - by rewrite step_changed.
Qed.

(** Over any session, the app writes one change line per breakpoint
    transition, and when the page has a log list it creates one entry
    per transition; without a log list the log state is left alone. *)
Theorem one_log_entry_per_transition (evs : list AppEvent)
    (app : ResponsiveApp) :
  appRegistry app →
  let n := transitions evs (currentBreakpoint (breakpointManager app)) in
  let app' := fst (steps evs app) in
  let out := snd (steps evs app) in
  length (List.filter isBreakpointChanged out) = n
  ∧ (is_Some (Log.breakpointLogEl (log app)) →
     Log.nextNode (log app') = (Log.nextNode (log app) + n)%nat
     ∧ is_Some (Log.breakpointLogEl (log app')))
  ∧ (Log.breakpointLogEl (log app) = None → log app' = log app).
Proof.
  revert app. induction evs as [|ev evs IH]; intros app Hreg.
  { cbn. split_and!; [done | intros ?; split; [lia | done] | done]. }
  cbn [steps].
  pose proof (step_registry ev app Hreg) as Hreg1.
  pose proof (step_current ev app Hreg) as Hcur.
  destruct ev as [b timestamp|b|b|i].
  - (* a notification of the manager *)
    cbn [transitions].
    destruct (String.eqb_spec (getCurrentBreakpoint (innerWidth (window b)))
                (currentBreakpoint (breakpointManager app))) as [E|Hne].
    + rewrite step_same in * by done. specialize (IH app Hreg).
      destruct (steps evs app) as [app2 out2]. exact IH.
    + rewrite step_changed in * by done. cbn [fst] in *.
      set (app1 := {| breakpointManager := _ |}) in *.
      specialize (IH app1 Hreg1). rewrite Hcur in IH.
      destruct (steps evs app1) as [app2 out2]. cbn [fst snd] in *.
      destruct IH as (IHout & IHsome & IHnone).
      split_and!.
      * cbn [List.app List.filter isBreakpointChanged length].
        rewrite List.filter_app, length_app, IHout.
        by destruct (_ || _); [|destruct (_ || _)].
      * intros [nodes Hnodes].
        destruct IHsome as [-> ?].
        { subst app1. cbn [log]. unfold Log.addLogEntry. by rewrite Hnodes. }
        split; [|done]. subst app1. cbn [log]. unfold Log.addLogEntry.
        rewrite Hnodes. cbn [Log.nextNode]. lia.
      * intros Hnone. rewrite IHnone.
        -- subst app1. cbn [log]. unfold Log.addLogEntry. by rewrite Hnone.
        -- subst app1. cbn [log]. unfold Log.addLogEntry. by rewrite Hnone.
  - specialize (IH (fst (step (WindowResized b) app)) Hreg1).
    rewrite Hcur in IH.
    destruct (step (WindowResized b) app) as [app1 out1] eqn:E1.
    cbn [step] in E1. injection E1 as <- <-.
    destruct (steps evs _) as [app2 out2]. exact IH.
  - specialize (IH (fst (step (OrientationChanged b) app)) Hreg1).
    rewrite Hcur in IH.
    destruct (step (OrientationChanged b) app) as [app1 out1] eqn:E1.
    cbn [step] in E1. injection E1 as <- <-.
    destruct (steps evs _) as [app2 out2]. exact IH.
  - specialize (IH (fst (step (NavInteraction i) app)) Hreg1).
    rewrite Hcur in IH.
    destruct (step (NavInteraction i) app) as [app1 out1] eqn:E1.
    cbn [step] in E1. injection E1 as <- <-.
    destruct (steps evs _) as [app2 out2]. exact IH.
Qed.

Lemma one_log_entry_per_transition_witness :
  let b w := {| window := {| innerWidth := w; innerHeight := 800 |};
                ontouchstart := false; maxTouchPoints := None;
                msMaxTouchPoints := None; devicePixelRatio := None |} in
  let e := {| currentBreakpointEl := None; viewportDimensionsEl := None;
              deviceTypeEl := None; orientationEl := None;
              viewportSizeEl := None; touchDeviceEl := None |} in
  let app := construct (b 600) None "" e
               {| Log.breakpointLogEl := Some []; Log.nextNode := 0 |} in
  let evs := [BodyResized (b 800) "10:00:00"; WindowResized (b 800);
              BodyResized (b 820) "10:00:01";
              BodyResized (b 500) "10:00:02"] in
  length (List.filter isBreakpointChanged (snd (steps evs app))) = 2%nat.
Proof.
  intros b e app evs.
  destruct (one_log_entry_per_transition evs app) as [H _]; [reflexivity|].
  exact H.
Defined.

(** ** The console view lines and the device type *)

Lemma view_lines data new :
  let lines :=
    BreakpointChanged data ::
    (if String.eqb new "lg" || String.eqb new "xl" then [DesktopView]
     else if String.eqb new "xs" || String.eqb new "sm" then [MobileView]
     else []) in
  (MobileView ∈ lines ↔ new = "xs" ∨ new = "sm")
  ∧ (DesktopView ∈ lines ↔ new = "lg" ∨ new = "xl").
Proof.
  cbv zeta.
  destruct (String.eqb_spec new "lg") as [->|Hlg];
    [|destruct (String.eqb_spec new "xl") as [->|Hxl];
      [|destruct (String.eqb_spec new "xs") as [->|Hxs];
        [|destruct (String.eqb_spec new "sm") as [->|Hsm]]]];
    cbn [orb String.eqb Ascii.eqb Bool.eqb andb];
    rewrite ?elem_of_cons, ?elem_of_nil;
    (split; split; intros Hq;
     repeat (destruct Hq as [Hq|Hq]; try discriminate Hq; try done);
     auto).
Qed.

Lemma breakpoint_widths w :
  (getCurrentBreakpoint w = "xs" ∨ getCurrentBreakpoint w = "sm" ↔ w < 768)
  ∧ (getCurrentBreakpoint w = "lg" ∨ getCurrentBreakpoint w = "xl"
     ↔ 1024 ≤ w < 1536).
Proof.
  rewrite BreakpointFacts.getCurrentBreakpoint_bands.
  repeat match goal with
         | |- context [?x <? ?y] => destruct (Z.ltb_spec x y)
         end; try lia;
    (split; split; intros Hq;
     first [lia | by left | by right
           | destruct Hq as [Hq|Hq]; discriminate Hq]).
Qed.

(** The app announces the mobile view exactly on transitions at widths
    the detector calls mobile, and the desktop view exactly on
    transitions into lg or xl; a transition into xxl, a desktop for the
    detector, is announced as neither. *)
Theorem console_view_matches_device (b : Browser) (timestamp : string)
    (app : ResponsiveApp) :
  appRegistry app →
  let w := innerWidth (window b) in
  let changed :=
    getCurrentBreakpoint w ≠ currentBreakpoint (breakpointManager app) in
  let out := snd (step (BodyResized b timestamp) app) in
  (MobileView ∈ out ↔ changed ∧ type (getDeviceInfo b) = mobile)
  ∧ (DesktopView ∈ out ↔ changed ∧ 1024 ≤ w < 1536)
  ∧ (DesktopView ∈ out → type (getDeviceInfo b) = desktop)
  ∧ (1536 ≤ w → (DesktopView ∉ out) ∧ type (getDeviceInfo b) = desktop).
Proof.
  intros Hreg w changed out. subst changed out.
  assert (type (getDeviceInfo b) = mobile ↔ w < 768) as Hmobile.
  { unfold getDeviceInfo. cbn [type]. fold w.
    destruct (Z.ltb_spec w 768), (Z.ltb_spec w 1024);
      split; intros; first [done | lia]. }
  assert (1024 ≤ w → type (getDeviceInfo b) = desktop) as Hdesktop.
  { unfold getDeviceInfo. cbn [type]. fold w. intros Hw.
    destruct (Z.ltb_spec w 768), (Z.ltb_spec w 1024); first [done | lia]. }
  destruct (breakpoint_widths w) as [Hsmall Hlarge].
  destruct (decide (getCurrentBreakpoint w
                    = currentBreakpoint (breakpointManager app))) as [E|Hne].
  - rewrite step_same by done. cbn [snd].
    rewrite !elem_of_nil. split_and!; try tauto.
    intros Hw. split; [tauto | apply Hdesktop; lia].
  - rewrite step_changed by done. cbn [snd]. fold w.
    match goal with
    | |- context [BreakpointChanged ?data :: _] =>
        destruct (view_lines data (getCurrentBreakpoint w)) as [Hm Hd]
    end.
    cbv zeta in Hm, Hd. rewrite Hm, Hd, Hsmall, Hlarge, Hmobile.
    split_and!; [tauto | tauto | intros ?; apply Hdesktop; lia |].
    intros Hw. split; [lia | apply Hdesktop; lia].
Qed.

Lemma console_view_matches_device_witness :
  let b w := {| window := {| innerWidth := w; innerHeight := 800 |};
                ontouchstart := false; maxTouchPoints := None;
                msMaxTouchPoints := None; devicePixelRatio := None |} in
  let e := {| currentBreakpointEl := None; viewportDimensionsEl := None;
              deviceTypeEl := None; orientationEl := None;
              viewportSizeEl := None; touchDeviceEl := None |} in
  let app := construct (b 600) None "" e
               {| Log.breakpointLogEl := None; Log.nextNode := 0 |} in
  (DesktopView ∉ snd (step (BodyResized (b 1600) "10:15:00") app))
  ∧ type (getDeviceInfo (b 1600)) = desktop.
Proof.
  intros b e app.
  destruct (console_view_matches_device (b 1600) "10:15:00" app)
    as (_ & _ & _ & H); [reflexivity|].
  apply H. simpl. lia.
Defined.

End AppFacts.
